(** * Directory-tree renderer (Phase2/store_os/struc.py)

    A shallow embedding of [DirectoryTree] and [print_directory_tree], and the
    properties of the rendered text.

    - A Python [str] is the sequence of its Unicode code points; [<] on
      strings is lexicographic by code point.
    - [str.lower] is a parameter of the program: its Unicode tables belong to
      the interpreter.  Where a concrete function is needed, names are ASCII
      and [ascii_lower] is what [str.lower] does on them.
    - [Path(s)] and [str(path)] are those of [pathlib] on a POSIX system.
    - The file system, as the walk sees it, is the tree of what [os.scandir]
      does for the root and for the [path] of every entry below: it raises
      an [OSError], or it lists entries.
    - [self] is threaded through the methods as state; an exception leaves
      [self] as it was when raised.
    - Standard output is the text written so far. *)

From Stdlib Require Import String Ascii List NArith ZArith Lia Bool.
From Stdlib Require Import Permutation Sorted.
Import ListNotations.
Local Open Scope N_scope.
Local Open Scope list_scope.

(** ** Python strings *)

Module PyStr.

(** A [str] is the list of its code points. *)
Definition str := list N.

(** An ASCII literal, character by character. *)
Definition lit (s : string) : str :=
  map N_of_ascii (list_ascii_of_string s).

(** [a < b] on [str]: lexicographic, by code point. *)
Definition compare (a b : str) : comparison := list_compare N.compare a b.
Definition ltb (a b : str) : bool :=
  match compare a b with Lt => true | _ => false end.

(** [s.startswith(p)]. *)
Fixpoint startswith (s p : str) : bool :=
  match p, s with
  | [], _ => true
  | _ :: _, [] => false
  | c :: p', d :: s' => (d =? c) && startswith s' p'
  end.

(** [s.split(sep)] for a one-character separator. *)
Fixpoint split (sep : N) (s : str) : list str :=
  match s with
  | [] => [[]]
  | c :: s' =>
      if c =? sep then [] :: split sep s'
      else match split sep s' with
           | h :: t => (c :: h) :: t
           | [] => [[c]]
           end
  end.

(** [sep.join(parts)]. *)
Fixpoint join (sep : str) (parts : list str) : str :=
  match parts with
  | [] => []
  | [p] => p
  | p :: rest => p ++ sep ++ join sep rest
  end.

(** [str.lower] on the ASCII range: only [A-Z] change. *)
Definition lower_cp (c : N) : N :=
  if (65 <=? c) && (c <=? 90) then c + 32 else c.
Definition ascii_lower (s : str) : str := map lower_cp s.
Definition isascii (s : str) : Prop := Forall (fun c => c < 128) s.

Definition newline : str := [10].
Definition slash : N := 47.
Definition dot : str := [46].

End PyStr.
Import PyStr.

(** ** [sorted(xs, key=...)]

    Python's sort compares keys with [<] only and is stable.  The stable
    sorted arrangement of a list is unique, so insertion from the right is
    the same function as the library's merge strategy: the result is a
    rearrangement ([sorted_perm]), in order ([sorted_ordered]), with entries
    of equal key left as they stood ([sorted_stable]). *)

Section Sorted.
Context {A : Type}.
Variable key : A -> str.

(** [x] stood before every element of [l]: it goes in front of the first
    element whose key is not strictly smaller. *)
Fixpoint insert (x : A) (l : list A) : list A :=
  match l with
  | [] => [x]
  | y :: l' => if ltb (key y) (key x) then y :: insert x l' else x :: l
  end.

Fixpoint sorted (l : list A) : list A :=
  match l with
  | [] => []
  | x :: l' => insert x (sorted l')
  end.
End Sorted.

(** ** [pathlib.Path] (POSIX flavour)

    Only construction from a string and [__str__] are used by the program. *)

Module Pathlib.

Record PurePosixPath := { _root : str; _tail : list str }.

(** [posixpath.splitroot]: no leading slash, exactly two, or one / three
    and more. *)
Definition splitroot (p : str) : str * str :=
  match p with
  | c1 :: p1 =>
      if c1 =? slash then
        match p1 with
        | c2 :: p2 =>
            if c2 =? slash then
              match p2 with
              | c3 :: _ => if c3 =? slash then ([slash], p1)
                           else ([slash; slash], p2)
              | [] => ([slash; slash], p2)
              end
            else ([slash], p1)
        | [] => ([slash], p1)
        end
      else ([], p)
  | [] => ([], p)
  end.

Definition is_nil (s : str) : bool :=
  match s with [] => true | _ => false end.
Definition is_dot (s : str) : bool :=
  match s with [c] => c =? 46 | _ => false end.

(** [Path(s)]: empty and [.] components are dropped. *)
Definition Path (s : str) : PurePosixPath :=
  let (r, rel) := splitroot s in
  {| _root := r;
     _tail := filter (fun x => negb (is_nil x) && negb (is_dot x))
                     (split slash rel) |}.

(** [str(p)]: root and components joined by [/], or [.] when empty. *)
Definition to_str (p : PurePosixPath) : str :=
  match _root p ++ join [slash] (_tail p) with
  | [] => dot
  | s => s
  end.


End Pathlib.
Import Pathlib.

(** ** The file system as the walk sees it *)

(** The exceptions of the model are the [OSError]s met on entering a
    directory (not found, not a directory, permission denied), each with the
    text [str(e)] gives.  The interpreter's own [RecursionError], on trees
    nested deeper than its limit, is not modelled. *)
Inductive exn := OSError (description : str).
Definition exn_str (e : exn) : str := match e with OSError d => d end.

(** An [os.DirEntry]: [name]; [is_dir], whether the walk tries to enter the
    entry; and, standing for [path], what entering it does.  For an entry
    that [is_dir()] reports as a directory this is what
    [os.scandir(entry.path)] does: raise, or list the children.  An entry
    whose [is_dir()] itself raises [e] is the entry with [is_dir := true]
    and [path := inl e]: in the source as here, its line is written and then
    [e] is raised, before anything below it is written. *)
#[local] Set Warnings "-register-all".
Inductive DirEntry := mkDirEntry {
  name : str;
  is_dir : bool;
  path : exn + list DirEntry
}.

Definition directory := (exn + list DirEntry)%type.

Fixpoint entry_depth (e : DirEntry) : nat :=
  match e with
  | mkDirEntry _ _ (inr l) => S (list_max (map entry_depth l))
  | mkDirEntry _ _ (inl _) => O
  end.

Definition dir_depth (d : directory) : nat :=
  match d with
  | inr l => S (list_max (map entry_depth l))
  | inl _ => O
  end.

(** ** State and exceptions *)

(** How a call ends: it returns, or it raises.  [OutOfFuel] is the model's
    own third ending, for a walk cut short by its bound on nested calls; the
    program is run with a bound that is never reached ([render_total]).  The
    interpreter's recursion limit is not modelled. *)
Inductive outcome (A : Type) :=
| Return (a : A)
| Raise (e : exn)
| OutOfFuel.
Arguments Return {A} a.
Arguments Raise {A} e.
Arguments OutOfFuel {A}.

(** The object [self]. *)
Record DirectoryTree := {
  root_dir : PurePosixPath;
  tree_str : str;
  indent : str;
  branch : str;
  tee : str;
  last_ : str
}.

Definition set_tree_str (t : str) (self : DirectoryTree) : DirectoryTree :=
  {| root_dir := root_dir self; tree_str := t; indent := indent self;
     branch := branch self; tee := tee self; last_ := last_ self |}.

(** A method body: it reads and updates [self], and returns or raises.  What
    was written to [self] before a [raise] stays written. *)
Definition M (A : Type) := DirectoryTree -> outcome A * DirectoryTree.

Definition ret {A} (a : A) : M A := fun self => (Return a, self).
Definition raise {A} (e : exn) : M A := fun self => (Raise e, self).
Definition out_of_fuel {A} : M A := fun self => (OutOfFuel, self).
Definition bind {A B} (m : M A) (k : A -> M B) : M B :=
  fun self =>
    match m self with
    | (Return a, self') => k a self'
    | (Raise e, self') => (Raise e, self')
    | (OutOfFuel, self') => (OutOfFuel, self')
    end.
Definition get {A} (f : DirectoryTree -> A) : M A :=
  fun self => (Return (f self), self).
Definition put_tree_str (t : str) : M unit :=
  fun self => (Return tt, set_tree_str t self).

Declare Scope py_scope.
Delimit Scope py_scope with py.
Notation "x <- m ;; k" := (bind m (fun x => k))
  (at level 61, m at next level, right associativity) : py_scope.
Notation "m ;; k" := (bind m (fun _ => k))
  (at level 61, right associativity) : py_scope.
Local Open Scope py_scope.

(** [os.scandir(p)], listed. *)
Definition os_scandir (p : directory) : M (list DirEntry) :=
  match p with
  | inl e => raise e
  | inr l => ret l
  end.

(** [for idx, x in enumerate(l): body], counting from [idx]. *)
Fixpoint for_enumerate {A} (idx : Z) (l : list A) (body : Z -> A -> M unit)
  : M unit :=
  match l with
  | [] => ret tt
  | x :: l' => body idx x ;; for_enumerate (idx + 1)%Z l' body
  end.

Definition len {A} (l : list A) : Z := Z.of_nat (length l).

(** ** The program *)

(** The box-drawing literals of [__init__]:
    U+2502, U+251C, U+2514 and U+2500, each group four characters long. *)
Definition bar_glyph : str := [9474; 32; 32; 32].
Definition tee_glyph : str := [9500; 9472; 9472; 32].
Definition last_glyph : str := [9492; 9472; 9472; 32].

Section Program.

(** [str.lower]: the Unicode case tables are the interpreter's. *)
Variable lower : str -> str.

(** [DirectoryTree.__init__] *)
Definition __init__ (root_dir : str) : DirectoryTree :=
  {| root_dir := Path root_dir;
     tree_str := [];
     indent := [32; 32; 32; 32];               (* "    " *)
     branch := bar_glyph;                      (* "│   " *)
     tee := tee_glyph;                         (* "├── " *)
     last_ := last_glyph |}.                   (* "└── " *)

Definition hidden (e : DirEntry) : bool := startswith (name e) dot.

(** [DirectoryTree._walk_directory]; [fuel] bounds the nesting of calls. *)
Fixpoint walk (fuel : nat) (current_path : directory) (prefix : str)
  : M unit :=
  match fuel with
  | O => out_of_fuel
  | S fuel' =>
      entries <- os_scandir current_path ;;
      let entries := sorted (fun e => lower (name e)) entries in
      let entries := filter (fun e => negb (hidden e)) entries in
      for_enumerate 0 entries (fun idx entry =>
        let is_last := (idx =? len entries - 1)%Z in
        connector <- get (if is_last then last_ else tee) ;;
        t <- get tree_str ;;
        put_tree_str (t ++ prefix ++ connector ++ name entry ++ newline) ;;
        if is_dir entry then
          br <- get branch ;;
          let next_prefix :=
            prefix ++ (if is_last then [32; 32; 32; 32] else br) in
          walk fuel' (path entry) next_prefix
        else ret tt)
  end.

(** The source recurses without a bound; the fuel given here is more than
    the nesting of the tree. *)
Definition _walk_directory (current_path : directory) (prefix : str)
  : M unit :=
  walk (S (dir_depth current_path)) current_path prefix.

(** [DirectoryTree.generate_tree]; [fs] is what lies at [self.root_dir]. *)
Definition generate_tree (fs : directory) : M str :=
  r <- get root_dir ;;
  put_tree_str (to_str r ++ newline) ;;
  _walk_directory fs [] ;;
  get tree_str.

(** [print(s)] on a standard output that holds [out]. *)
Definition print (s : str) (out : str) : str := out ++ s ++ newline.

(** [print_directory_tree]: the result and the standard output after it. *)
Definition print_directory_tree (p : str) (fs : directory) (stdout : str)
  : outcome unit * str :=
  match generate_tree fs (__init__ p) with
  | (Return t, _) => (Return tt, print t stdout)
  | (Raise e, _) =>
      (Return tt,
       print (lit "Error generating directory tree: " ++ exn_str e) stdout)
  | (OutOfFuel, _) => (OutOfFuel, stdout)
  end.

(** [render]: a fresh object, asked for its tree once. *)
Definition render (p : str) (fs : directory) : outcome str :=
  fst (generate_tree fs (__init__ p)).

End Program.

(** ** The end-to-end example *)

Module Example.
Definition file (n : string) : DirEntry :=
  {| name := lit n; is_dir := false;
     path := inl (OSError (lit "Not a directory")) |}.
Definition dir (n : string) (l : list DirEntry) : DirEntry :=
  {| name := lit n; is_dir := true; path := inr l |}.

(** [root/] holds [.hidden/], [b.txt] and [A/]; [A/] holds [c.txt]. *)
Definition root : directory :=
  inr [dir ".hidden" []; file "b.txt"; dir "A" [file "c.txt"]].

Definition expected : str :=
  lit "root" ++ newline
  ++ tee_glyph ++ lit "A" ++ newline
  ++ bar_glyph ++ last_glyph ++ lit "c.txt" ++ newline
  ++ last_glyph ++ lit "b.txt" ++ newline.
End Example.

(** ** The walk in the specification's order of steps *)

Section SpecOrder.
Variable lower : str -> str.

(** The walk with the steps in the order the specification lists them:
    (b) exclude the children whose name starts with a dot, then (c) sort
    what remains.  Everything else is [walk]. *)
Fixpoint walk_spec_order (fuel : nat) (current_path : directory) (prefix : str)
  : M unit :=
  match fuel with
  | O => out_of_fuel
  | S fuel' =>
      entries <- os_scandir current_path ;;
      let entries := filter (fun e => negb (hidden e)) entries in
      let entries := sorted (fun e => lower (name e)) entries in
      for_enumerate 0 entries (fun idx entry =>
        let is_last := (idx =? len entries - 1)%Z in
        connector <- get (if is_last then last_ else tee) ;;
        t <- get tree_str ;;
        put_tree_str (t ++ prefix ++ connector ++ name entry ++ newline) ;;
        if is_dir entry then
          br <- get branch ;;
          let next_prefix :=
            prefix ++ (if is_last then [32; 32; 32; 32] else br) in
          walk_spec_order fuel' (path entry) next_prefix
        else ret tt)
  end.

Definition generate_tree_spec_order (fs : directory) : M str :=
  r <- get root_dir ;;
  put_tree_str (to_str r ++ newline) ;;
  walk_spec_order (S (dir_depth fs)) fs [] ;;
  get tree_str.

Definition render_spec_order (p : str) (fs : directory) : outcome str :=
  fst (generate_tree_spec_order fs (__init__ p)).

End SpecOrder.

(** ** What a walk writes

    [_walk_directory] only ever appends to [self.tree_str] and reads the
    three glyph attributes.  [emit] is the appended text as a function of
    those; the properties of the program are read off it. *)

Definition visible (e : DirEntry) : bool := negb (hidden e).

Definition four_spaces : str := [32; 32; 32; 32].

Section Text.
Variable lower : str -> str.
Variables lst te br : str.   (* self.last, self.tee, self.branch *)

(** The entries the loop runs over. *)
Definition entries_of (l : list DirEntry) : list DirEntry :=
  filter (fun e => negb (hidden e)) (sorted (fun e => lower (name e)) l).

Definition is_last_at (n idx : Z) : bool := (idx =? n - 1)%Z.
Definition connector (b : bool) : str := if b then lst else te.
Definition group (b : bool) : str := if b then four_spaces else br.
Definition line (prefix : str) (b : bool) (e : DirEntry) : str :=
  prefix ++ connector b ++ name e ++ newline.

Fixpoint emit_loop (rec : directory -> str -> outcome unit * str)
    (prefix : str) (n idx : Z) (l : list DirEntry) : outcome unit * str :=
  match l with
  | [] => (Return tt, [])
  | e :: l' =>
      let b := is_last_at n idx in
      let (r, sub) :=
        if is_dir e then rec (path e) (prefix ++ group b)
        else (Return tt, []) in
      match r with
      | Return _ =>
          let (r', rest) := emit_loop rec prefix n (idx + 1) l' in
          (r', line prefix b e ++ sub ++ rest)
      | _ => (r, line prefix b e ++ sub)
      end
  end.

Fixpoint emit (fuel : nat) (d : directory) (prefix : str)
  : outcome unit * str :=
  match fuel with
  | O => (OutOfFuel, [])
  | S fuel' =>
      match d with
      | inl e => (Raise e, [])
      | inr l =>
          emit_loop (emit fuel') prefix (len (entries_of l)) 0 (entries_of l)
      end
  end.

(** The text of [_walk_directory d prefix]. *)
Definition text (d : directory) (prefix : str) : outcome unit * str :=
  emit (S (dir_depth d)) d prefix.

(** The text written for the subtree of [e] when the walk below it, if any,
    is [rec]. *)
Definition subtree (rec : directory -> str -> outcome unit * str)
    (prefix : str) (b : bool) (e : DirEntry) (sub : str) : Prop :=
  if is_dir e then rec (path e) (prefix ++ group b) = (Return tt, sub)
  else sub = [].

Definition glyphs (self : DirectoryTree) : Prop :=
  last_ self = lst /\ tee self = te /\ branch self = br.

End Text.

Definition appended (self : DirectoryTree) (x : outcome unit * str)
  : outcome unit * DirectoryTree :=
  (fst x, set_tree_str (tree_str self ++ snd x) self).

Definition finish {A} (r : outcome unit) (a : A) : outcome A :=
  match r with
  | Return _ => Return a
  | Raise e => Raise e
  | OutOfFuel => OutOfFuel
  end.

(** The text of the walk below a freshly made object. *)
Definition body (lower : str -> str) (fs : directory) : outcome unit * str :=
  text lower last_glyph tee_glyph bar_glyph fs [].

(** The result of [_walk_directory d prefix] on a fresh object, and what it
    leaves in the buffer. *)
Definition walk_result (lower : str -> str) (d : directory) (prefix : str)
  : outcome unit :=
  fst (_walk_directory lower d prefix (__init__ [])).

Definition walk_text (lower : str -> str) (d : directory) (prefix : str)
  : str :=
  tree_str (snd (_walk_directory lower d prefix (__init__ []))).

(** ** Notions the properties are stated with *)

(** [x] may stand before [y]: [y]'s key is not strictly smaller. *)
Definition key_le {A} (key : A -> str) (x y : A) : Prop :=
  ltb (key y) (key x) = false.

(** Every name in the tree is ASCII. *)
Inductive ascii_names : directory -> Prop :=
| ascii_names_error (e : exn) : ascii_names (inl e)
| ascii_names_listing (l : list DirEntry) :
    Forall (fun e => isascii (name e) /\ ascii_names (path e)) l ->
    ascii_names (inr l).

(** The lines of a text, each closed by its newline. *)
Definition unlines (lines : list str) : str :=
  concat (map (fun l => l ++ newline) lines).

(** The visible entries below a directory, through visible directories. *)
Fixpoint count_entry (e : DirEntry) : nat :=
  match e with
  | mkDirEntry n d p =>
      if startswith n dot then O
      else S (if d then
                match p with
                | inr l => list_sum (map count_entry l)
                | inl _ => O
                end
              else O)
  end.

Definition count_dir (d : directory) : nat :=
  match d with
  | inr l => list_sum (map count_entry l)
  | inl _ => O
  end.

(** [os.scandir] raises [e] for the directory itself, or for a directory
    below it that the walk enters: visible, and under visible directories. *)
Inductive raises_in : directory -> exn -> Prop :=
| raises_here (e : exn) : raises_in (inl e) e
| raises_below (l : list DirEntry) (d : DirEntry) (e : exn) :
    In d l -> hidden d = false -> is_dir d = true ->
    raises_in (path d) e -> raises_in (inr l) e.

(** The directories the walk enters, each with the record of its ancestors:
    for every directory on the way down from the root, outermost first,
    whether it was the last visible sibling at its level. *)
Inductive reached (lower : str -> str) (root : list DirEntry)
  : list bool -> list DirEntry -> Prop :=
| reached_root : reached lower root [] root
| reached_child (flags : list bool) (l : list DirEntry) (i : nat)
    (d : DirEntry) (l' : list DirEntry) :
    reached lower root flags l ->
    nth_error (entries_of lower l) i = Some d ->
    is_dir d = true ->
    path d = inr l' ->
    reached lower root
      (flags ++ [is_last_at (len (entries_of lower l)) (Z.of_nat i)]) l'.

(** One depth-indicator group per ancestor: four spaces below a last
    sibling, the bar and three spaces below any other. *)
Definition groups (flags : list bool) : str :=
  concat (map (group bar_glyph) flags).

(** ** Notions for the further properties *)

(** The text one run of the loop writes for [entries] under [prefix]: every
    entry but the last with the tee, and the bar in front of what lies below
    it; the last with the corner, and four spaces below. *)
Definition children_text (lower : str -> str) (prefix : str)
    (entries : list DirEntry) : str :=
  concat
    (map (fun eb : DirEntry * bool =>
            line last_glyph tee_glyph prefix (snd eb) (fst eb)
            ++ (if is_dir (fst eb)
                then walk_text lower (path (fst eb))
                       (prefix ++ group bar_glyph (snd eb))
                else []))
         (combine entries (repeat false (length entries - 1) ++ [true]))).

(** Two entries that differ at most in what lies at the [path] of a
    non-directory. *)
Definition same_but_file_path (a b : DirEntry) : Prop :=
  name a = name b /\ is_dir a = is_dir b
  /\ (is_dir a = true -> path a = path b).

(** ** The lines of the tree *)

(** A line of the tree: for every directory between the root and the entry,
    outermost first, whether it was the last visible sibling at its level;
    whether the entry itself is; and the entry. *)
Definition item : Type := (list bool * bool * DirEntry)%type.
Definition item_flags (it : item) : list bool := fst (fst it).
Definition item_last (it : item) : bool := snd (fst it).
Definition item_entry (it : item) : DirEntry := snd it.

(** Its text: one group per ancestor, the connector, the name, a newline. *)
Definition item_text (it : item) : str :=
  groups (item_flags it)
  ++ connector last_glyph tee_glyph (item_last it)
  ++ name (item_entry it) ++ newline.

(** [it] is the line of an entry the walk of [root] meets: the entry stands
    at a position of the loop over a directory the walk enters, which was
    reached through directories whose last-sibling flags are those of [it],
    and it is flagged last exactly when its position is the last. *)
Definition located (lower : str -> str) (root : list DirEntry) (it : item)
  : Prop :=
  exists l i,
    reached lower root (item_flags it) l
    /\ nth_error (entries_of lower l) i = Some (item_entry it)
    /\ item_last it = is_last_at (len (entries_of lower l)) (Z.of_nat i).

(** The same line seen from further up, [fl] being the flags on the way. *)
Definition shift (fl : list bool) (it : item) : item :=
  (fl ++ item_flags it, item_last it, item_entry it).

(** The lines of a loop over [E] that starts at position [k] of [n]: the
    line of an entry of [E], or a line of the tree below one of them. *)
Definition in_loop (lower : str -> str) (n : Z) (k : nat)
    (E : list DirEntry) (it : item) : Prop :=
  exists i e,
    nth_error E i = Some e
    /\ (it = ([], is_last_at n (Z.of_nat (k + i)), e)
        \/ (is_dir e = true
            /\ exists l' it',
                 path e = inr l' /\ located lower l' it'
                 /\ it = shift [is_last_at n (Z.of_nat (k + i))] it')).

(** The visible entries at and below an entry, through visible entries the
    walk enters; this needs no order. *)
Fixpoint entries_below (e : DirEntry) : list DirEntry :=
  match e with
  | mkDirEntry n d p =>
      if startswith n dot then []
      else mkDirEntry n d p
           :: (if d then
                 match p with
                 | inr l => flat_map entries_below l
                 | inl _ => []
                 end
               else [])
  end.

Definition reachable (d : directory) : list DirEntry :=
  match d with
  | inr l => flat_map entries_below l
  | inl _ => []
  end.

(** What a walk of [l], made under the flags [fl] and ended as [r], has
    written: the lines of entries it met, one after the other; when it
    returned, the line of every entry there is to meet, each once; when it
    raised [x], last the line of the entry that could not be entered. *)
Definition walked (meets : item -> Prop)
    (all : list DirEntry) (fl : list bool) (r : outcome unit) (out : str)
  : Prop :=
  exists its,
    out = concat (map (fun it => item_text (shift fl it)) its)
    /\ (forall it, In it its -> meets it)
    /\ (r = Return tt ->
        (forall it, meets it -> In it its)
        /\ Permutation (map item_entry its) all)
    /\ (forall x, r = Raise x ->
        exists its' it,
          its = its' ++ [it]
          /\ is_dir (item_entry it) = true /\ path (item_entry it) = inl x).

(** * Properties *)

(** ** The order on strings *)

Section StrOrder.

Lemma N_compare_trans (x y z : N) (c : comparison) :
  (x ?= y) = c -> (y ?= z) = c -> (x ?= z) = c.
Proof.
  destruct c; intros Hxy Hyz.
  - apply N.compare_eq_iff in Hxy, Hyz. subst. apply N.compare_refl.
  - rewrite N.compare_lt_iff in *. lia.
  - rewrite N.compare_gt_iff in *. lia.
Qed.

Lemma compare_antisym (a b : str) : compare b a = CompOpp (compare a b).
Proof.
  apply list_compare_antisym.
  - apply N.compare_eq_iff.
  - intros x y. apply N.compare_antisym.
Qed.

Lemma compare_trans (a b c : str) (r : comparison) :
  compare a b = r -> compare b c = r -> compare a c = r.
Proof.
  apply list_compare_trans.
  - apply N.compare_eq_iff.
  - intros x y z k. apply N_compare_trans.
  - intros x y. apply N.compare_antisym.
Qed.

Lemma compare_eq (a b : str) : compare a b = Eq <-> a = b.
Proof. apply list_compare_refl, N.compare_eq_iff. Qed.

Lemma ltb_irrefl (a : str) : ltb a a = false.
Proof.
  unfold ltb.
  now replace (compare a a) with Eq by (symmetry; now apply compare_eq).
Qed.

Lemma ltb_asym (a b : str) : ltb a b = true -> ltb b a = false.
Proof.
  unfold ltb. rewrite (compare_antisym a b).
  now destruct (compare a b).
Qed.

(** [a <= b <= c] gives [a <= c], where [x <= y] is [not (y < x)]. *)
Lemma leb_trans (a b c : str) :
  ltb b a = false -> ltb c b = false -> ltb c a = false.
Proof.
  unfold ltb. rewrite (compare_antisym a b), (compare_antisym b c),
    (compare_antisym a c).
  destruct (compare a b) eqn:Hab, (compare b c) eqn:Hbc;
    simpl; try discriminate; intros _ _.
  - now rewrite (compare_trans _ _ _ _ Hab Hbc).
  - apply compare_eq in Hab. subst. now rewrite Hbc.
  - apply compare_eq in Hbc. subst. now rewrite Hab.
  - now rewrite (compare_trans _ _ _ _ Hab Hbc).
Qed.

End StrOrder.

(** ** [sorted]: a stable, ordered rearrangement *)

Section SortedFacts.
Context {A : Type}.
Variable key : A -> str.

#[local] Abbreviation key_le := (key_le key).

Lemma key_le_trans (x y z : A) : key_le x y -> key_le y z -> key_le x z.
Proof. unfold key_le. apply leb_trans. Qed.

Lemma insert_perm (x : A) (l : list A) : Permutation (insert key x l) (x :: l).
Proof.
  induction l as [|y l IH]; simpl; [reflexivity|].
  destruct (ltb (key y) (key x)); [|reflexivity].
  rewrite IH. apply perm_swap.
Qed.

Lemma sorted_perm (l : list A) : Permutation (sorted key l) l.
Proof.
  induction l as [|x l IH]; simpl; [constructor|].
  rewrite insert_perm. now constructor.
Qed.

Lemma sorted_In (x : A) (l : list A) : In x (sorted key l) <-> In x l.
Proof.
  split; apply Permutation_in;
    [apply sorted_perm | apply Permutation_sym, sorted_perm].
Qed.

Lemma insert_ordered (x : A) (l : list A) :
  StronglySorted key_le l -> StronglySorted key_le (insert key x l).
Proof.
  induction 1 as [|y l Hl IH Hy]; simpl.
  - repeat constructor.
  - destruct (ltb (key y) (key x)) eqn:Hlt.
    + constructor; [exact IH|].
      rewrite Forall_forall in *. intros z Hz.
      apply (Permutation_in _ (insert_perm x l)) in Hz.
      destruct Hz as [<-|Hz]; [|now apply Hy].
      unfold key_le. now apply ltb_asym.
    + constructor; [now constructor|].
      constructor; [exact Hlt|].
      rewrite Forall_forall in *. intros z Hz.
      apply key_le_trans with y; [exact Hlt | now apply Hy].
Qed.

Lemma sorted_ordered (l : list A) : StronglySorted key_le (sorted key l).
Proof.
  induction l as [|x l IH]; simpl; [constructor | now apply insert_ordered].
Qed.

(** Inserting in front of a list of larger-or-equal keys. *)
Lemma insert_front (x : A) (l : list A) :
  Forall (key_le x) l -> insert key x l = x :: l.
Proof.
  destruct 1 as [|y l Hy _]; simpl; [reflexivity|].
  unfold key_le in Hy. now rewrite Hy.
Qed.

Lemma insert_filter (p : A -> bool) (x : A) (l : list A) :
  StronglySorted key_le l ->
  filter p (insert key x l)
  = if p x then insert key x (filter p l) else filter p l.
Proof.
  induction 1 as [|y l Hl IH Hy]; simpl.
  - now destruct (p x).
  - destruct (ltb (key y) (key x)) eqn:Hlt; simpl.
    + rewrite IH. destruct (p y), (p x); simpl; try reflexivity.
      now rewrite Hlt.
    + change (if p y then y :: filter p l else filter p l)
        with (filter p (y :: l)).
      destruct (p x) eqn:Hpx; [|reflexivity].
      rewrite insert_front; [reflexivity|].
      assert (Hall : Forall (key_le x) (y :: l)).
      { constructor; [exact Hlt|].
        rewrite Forall_forall in *. intros z Hz.
        apply key_le_trans with y; [exact Hlt | now apply Hy]. }
      rewrite Forall_forall in *. intros z Hz.
      apply Hall. apply filter_In in Hz. tauto.
Qed.

(** Sorting and then filtering is filtering and then sorting. *)
Lemma filter_sorted (p : A -> bool) (l : list A) :
  filter p (sorted key l) = sorted key (filter p l).
Proof.
  induction l as [|x l IH]; simpl; [reflexivity|].
  rewrite insert_filter by apply sorted_ordered.
  rewrite IH. now destruct (p x).
Qed.

(** Entries of one key keep the order they had. *)
Lemma sorted_fixed (l : list A) :
  (forall x y, In x l -> In y l -> key x = key y) -> sorted key l = l.
Proof.
  induction l as [|x l IH]; intros H; simpl; [reflexivity|].
  rewrite IH by (intros y z Hy Hz; apply H; now right).
  apply insert_front. rewrite Forall_forall. intros y Hy.
  unfold key_le. rewrite (H y x) by (simpl; auto). apply ltb_irrefl.
Qed.

Lemma sorted_stable (p : A -> bool) (l : list A) :
  (forall x y, p x = true -> p y = true -> key x = key y) ->
  filter p (sorted key l) = filter p l.
Proof.
  intros H. rewrite filter_sorted. apply sorted_fixed.
  intros x y Hx Hy. apply filter_In in Hx, Hy. apply H; tauto.
Qed.

(** Earlier positions hold keys that are not larger. *)
Lemma ordered_nth (l : list A) (i j : nat) (x y : A) :
  StronglySorted key_le l ->
  nth_error l i = Some x -> nth_error l j = Some y ->
  (i <= j)%nat -> key_le x y.
Proof.
  intros Hs. revert i j. induction Hs as [|z l Hl IH Hz]; intros i j Hi Hj Hij.
  - now destruct i.
  - destruct i as [|i], j as [|j]; simpl in *; try lia.
    + injection Hi as <-. injection Hj as <-. apply ltb_irrefl.
    + injection Hi as <-. rewrite Forall_forall in Hz.
      apply Hz. eapply nth_error_In; eauto.
    + apply (IH i j); auto; lia.
Qed.

End SortedFacts.

Lemma sorted_ext {A} (k1 k2 : A -> str) (l : list A) :
  (forall x, In x l -> k1 x = k2 x) -> sorted k1 l = sorted k2 l.
Proof.
  induction l as [|x l IH]; intros H; simpl; [reflexivity|].
  rewrite IH by (intros y Hy; apply H; right; exact Hy).
  assert (Hin : forall y, In y (sorted k2 l) -> k1 y = k2 y).
  { intros y Hy. apply H. right. exact (proj1 (sorted_In k2 y l) Hy). }
  assert (Hx : k1 x = k2 x) by (apply H; now left).
  clear IH H.
  induction (sorted k2 l) as [|y l' IH']; simpl; [reflexivity|].
  rewrite (Hin y) by now left.
  rewrite Hx.
  destruct (ltb (k2 y) (k2 x)); [|reflexivity].
  f_equal. apply IH'. intros; apply Hin; now right.
Qed.

(** ** The walk appends [emit]'s text *)

Section Emit.
Variable lower : str -> str.
Variables lst te br : str.

#[local] Abbreviation connector := (connector lst te).
#[local] Abbreviation group := (group br).
#[local] Abbreviation line := (line lst te).
#[local] Abbreviation emit_loop := (emit_loop lst te br).
#[local] Abbreviation emit := (emit lower lst te br).
#[local] Abbreviation glyphs := (glyphs lst te br).

Lemma set_tree_str_same (self : DirectoryTree) :
  set_tree_str (tree_str self) self = self.
Proof. now destruct self. Qed.

Lemma appended_nil (r : outcome unit) (self : DirectoryTree) :
  appended self (r, []) = (r, self).
Proof.
  unfold appended. simpl. now rewrite app_nil_r, set_tree_str_same.
Qed.

Lemma for_enumerate_emit (fuel : nat) (prefix : str) (n : Z) :
  (forall d p self, glyphs self ->
     walk lower fuel d p self = appended self (emit fuel d p)) ->
  forall (l : list DirEntry) (idx : Z) (self : DirectoryTree),
    glyphs self ->
    for_enumerate idx l (fun idx entry =>
        let is_last := (idx =? n - 1)%Z in
        connector <- get (if is_last then last_ else tee) ;;
        t <- get tree_str ;;
        put_tree_str (t ++ prefix ++ connector ++ name entry ++ newline) ;;
        if is_dir entry then
          br <- get branch ;;
          let next_prefix :=
            prefix ++ (if is_last then [32; 32; 32; 32] else br) in
          walk lower fuel (path entry) next_prefix
        else ret tt) self
    = appended self (emit_loop (emit fuel) prefix n idx l).
Proof.
  intros IH l. induction l as [|e l IHl]; intros idx self Hg.
  - simpl. now rewrite appended_nil.
  - destruct Hg as (Hl & Ht & Hb).
    cbn [for_enumerate emit_loop]. unfold bind at 1. unfold bind at 1.
    unfold get at 1. unfold bind at 1. unfold get at 1.
    unfold bind at 1. unfold put_tree_str at 1.
    assert (Hconn : (if (idx =? n - 1)%Z then last_ self else tee self)
                    = connector (is_last_at n idx)).
    { unfold connector, is_last_at. rewrite Hl, Ht. reflexivity. }
    replace ((if (idx =? n - 1)%Z then last_ else tee) self)
      with (connector (is_last_at n idx))
      by (rewrite <- Hconn; now destruct (idx =? n - 1)%Z).
    fold (line prefix (is_last_at n idx) e).
    set (self1 := set_tree_str _ self).
    assert (Hg1 : glyphs self1) by (repeat split; assumption).
    destruct (is_dir e).
    + unfold bind at 1. unfold get at 1.
      replace (branch self1) with br by (symmetry; exact Hb).
      fold four_spaces.
      change (prefix ++ (if (idx =? n - 1)%Z then four_spaces else br))
        with (prefix ++ group (is_last_at n idx)).
      rewrite (IH _ _ self1 Hg1).
      destruct (emit fuel (path e) (prefix ++ group (is_last_at n idx)))
        as [[[]|x|] sub]; unfold appended; simpl.
      * rewrite IHl by (repeat split; assumption).
        destruct (emit_loop (emit fuel) prefix n (idx + 1) l) as [r' rest].
        unfold appended. simpl. now rewrite <- !app_assoc.
      * now rewrite <- !app_assoc.
      * now rewrite <- !app_assoc.
    + unfold ret at 1. rewrite IHl by exact Hg1.
      destruct (emit_loop (emit fuel) prefix n (idx + 1) l) as [r' rest].
      unfold appended. simpl. now rewrite <- !app_assoc.
Qed.

(** The walk appends [emit]'s text and leaves everything else alone. *)
Lemma walk_emit (fuel : nat) :
  forall d p self, glyphs self ->
    walk lower fuel d p self = appended self (emit fuel d p).
Proof.
  induction fuel as [|fuel IH]; intros d p self Hg.
  - simpl. unfold out_of_fuel. now rewrite appended_nil.
  - destruct d as [e|l].
    + simpl. unfold bind, raise. simpl. now rewrite appended_nil.
    + cbn [walk emit os_scandir]. unfold bind at 1. unfold ret at 1.
      apply (for_enumerate_emit fuel p _ IH); exact Hg.
Qed.

End Emit.

(** ** Fuel: the walk of a finite tree needs a finite number of calls *)

Lemma entry_depth_path (e : DirEntry) : entry_depth e = dir_depth (path e).
Proof. now destruct e as [n d [x|l]]. Qed.

Lemma entry_depth_le (e : DirEntry) (l : list DirEntry) :
  In e l -> (entry_depth e <= list_max (map entry_depth l))%nat.
Proof.
  intros Hin.
  assert (H := proj1 (list_max_le (map entry_depth l) _) (Nat.le_refl _)).
  rewrite Forall_forall in H. apply H. now apply in_map.
Qed.

Lemma entries_of_In (lower : str -> str) (e : DirEntry) (l : list DirEntry) :
  In e (entries_of lower l) <-> In e l /\ hidden e = false.
Proof.
  unfold entries_of. rewrite filter_In, sorted_In, negb_true_iff. tauto.
Qed.

Section Fuel.
Variable lower : str -> str.
Variables lst te br : str.

#[local] Abbreviation emit := (emit lower lst te br).
#[local] Abbreviation emit_loop := (emit_loop lst te br).
#[local] Abbreviation entries_of := (entries_of lower).
#[local] Abbreviation text := (text lower lst te br).

Lemma emit_loop_ext (rec1 rec2 : directory -> str -> outcome unit * str)
    (prefix : str) (n : Z) (l : list DirEntry) :
  (forall e p, In e l -> is_dir e = true -> rec1 (path e) p = rec2 (path e) p) ->
  forall idx, emit_loop rec1 prefix n idx l = emit_loop rec2 prefix n idx l.
Proof.
  induction l as [|e l IH]; intros H idx; simpl; [reflexivity|].
  rewrite IH by (intros; apply H; auto; now right).
  destruct (is_dir e) eqn:Hd; [|reflexivity].
  rewrite (H e) by (auto; now left). reflexivity.
Qed.

Lemma emit_fuel (f1 : nat) :
  forall f2 d p,
    (dir_depth d < f1)%nat -> (dir_depth d < f2)%nat ->
    emit f1 d p = emit f2 d p.
Proof.
  induction f1 as [|f1 IH]; intros f2 d p H1 H2; [lia|].
  destruct f2 as [|f2]; [lia|].
  destruct d as [x|l]; simpl; [reflexivity|].
  apply emit_loop_ext. intros e q He _.
  apply entries_of_In in He. destruct He as [He _].
  apply entry_depth_le in He. rewrite entry_depth_path in He.
  simpl in H1, H2. apply IH; lia.
Qed.

Lemma emit_loop_total (rec : directory -> str -> outcome unit * str)
    (prefix : str) (n : Z) (l : list DirEntry) :
  (forall e p, In e l -> fst (rec (path e) p) <> OutOfFuel) ->
  forall idx, fst (emit_loop rec prefix n idx l) <> OutOfFuel.
Proof.
  induction l as [|e l IH]; intros H idx; simpl; [discriminate|].
  specialize (IH (fun e p He => H e p (or_intror He)) (idx + 1)%Z).
  destruct (is_dir e).
  - specialize (H e (prefix ++ group br (is_last_at n idx)) (or_introl eq_refl)).
    destruct (rec (path e) _) as [[[]|x|] sub]; simpl in *; try easy.
    now destruct (emit_loop rec prefix n (idx + 1) l).
  - now destruct (emit_loop rec prefix n (idx + 1) l).
Qed.

(** With fuel above the depth of the tree the walk returns or raises. *)
Lemma emit_total (fuel : nat) :
  forall d p, (dir_depth d < fuel)%nat -> fst (emit fuel d p) <> OutOfFuel.
Proof.
  induction fuel as [|fuel IH]; intros d p H; [lia|].
  destruct d as [x|l]; simpl; [discriminate|].
  apply emit_loop_total. intros e q He.
  apply entries_of_In in He. destruct He as [He _].
  apply entry_depth_le in He. rewrite entry_depth_path in He.
  simpl in H. apply IH; lia.
Qed.

Lemma text_total (d : directory) (p : str) : fst (text d p) <> OutOfFuel.
Proof. apply emit_total. lia. Qed.

Lemma emit_S_inr (fuel : nat) (l : list DirEntry) (p : str) :
emit (S fuel) (inr l) p
= emit_loop (emit fuel) p (len (entries_of l)) 0 (entries_of l).
Proof. reflexivity. Qed.

(** One level of the walk, in terms of the walks below. *)
Lemma text_inr (l : list DirEntry) (p : str) :
text (inr l) p
= emit_loop text p (len (entries_of l)) 0 (entries_of l).
Proof.
unfold text at 1. rewrite emit_S_inr.
apply emit_loop_ext. intros e q He _.
apply entries_of_In in He. destruct He as [He _].
apply entry_depth_le in He. rewrite entry_depth_path in He.
unfold text. apply emit_fuel; simpl; lia.
Qed.

End Fuel.

(** ** [generate_tree], [render] and [print_directory_tree] as text *)

Section TopLevel.
Variable lower : str -> str.

#[local] Abbreviation body := (body lower).

Lemma generate_tree_text (fs : directory) (self : DirectoryTree) :
  generate_tree lower fs self
  = let head := to_str (root_dir self) ++ newline in
    let x := text lower (last_ self) (tee self) (branch self) fs [] in
    (finish (fst x) (head ++ snd x), set_tree_str (head ++ snd x) self).
Proof.
  unfold generate_tree, _walk_directory.
  unfold bind at 1. unfold get at 1. unfold bind at 1. unfold put_tree_str.
  unfold bind at 1.
  rewrite (walk_emit lower (last_ self) (tee self) (branch self))
    by (repeat split).
  unfold appended, text.
  destruct (emit lower _ _ _ _ fs []) as [[[]|e|] out]; cbn [fst snd finish].
  all: unfold get; cbn [tree_str set_tree_str]; now rewrite <- ?app_assoc.
Qed.

Lemma render_body (p : str) (fs : directory) :
  render lower p fs
  = finish (fst (body fs)) (to_str (Path p) ++ newline ++ snd (body fs)).
Proof.
  unfold render. rewrite generate_tree_text. cbn [fst].
  unfold body. cbn [root_dir last_ tee branch __init__].
  now rewrite <- app_assoc.
Qed.

Lemma render_total (p : str) (fs : directory) :
  render lower p fs <> OutOfFuel.
Proof.
  rewrite render_body. pose proof (text_total lower last_glyph tee_glyph
    bar_glyph fs []) as H. fold (body fs) in H.
  now destruct (fst (body fs)).
Qed.

Lemma print_directory_tree_render (p : str) (fs : directory) (stdout : str) :
  print_directory_tree lower p fs stdout
  = match render lower p fs with
    | Return t => (Return tt, print t stdout)
    | Raise e =>
        (Return tt,
         print (lit "Error generating directory tree: " ++ exn_str e) stdout)
    | OutOfFuel => (OutOfFuel, stdout)
    end.
Proof.
  unfold print_directory_tree, render.
  now destruct (generate_tree lower fs (__init__ p)) as [[t|e|] self].
Qed.

End TopLevel.

(** ** Names in ASCII: only the ASCII part of [str.lower] matters *)

Section AsciiNames.
Variable lower : str -> str.
Hypothesis lower_ascii : forall s, isascii s -> lower s = ascii_lower s.
Variables lst te br : str.

Lemma entries_of_ascii (l : list DirEntry) :
  Forall (fun e => isascii (name e) /\ ascii_names (path e)) l ->
  entries_of lower l = entries_of ascii_lower l.
Proof.
  intros H. unfold entries_of. f_equal. apply sorted_ext.
  intros e He. rewrite Forall_forall in H. now apply lower_ascii, H.
Qed.

Lemma emit_ascii (fuel : nat) :
  forall d p, ascii_names d ->
    emit lower lst te br fuel d p = emit ascii_lower lst te br fuel d p.
Proof.
  induction fuel as [|fuel IH]; intros d p Hd; [reflexivity|].
  destruct Hd as [e|l Hl]; [reflexivity|].
  rewrite !emit_S_inr, (entries_of_ascii l Hl).
  apply emit_loop_ext. intros e q He _. apply IH.
  apply entries_of_In in He. rewrite Forall_forall in Hl.
  destruct (Hl e) as [_ Hp]; [tauto | exact Hp].
Qed.

End AsciiNames.

Lemma render_ascii (lower : str -> str) (p : str) (fs : directory) :
  (forall s, isascii s -> lower s = ascii_lower s) ->
  ascii_names fs -> render lower p fs = render ascii_lower p fs.
Proof.
  intros Hl H. rewrite !render_body. unfold body, text.
  now rewrite (emit_ascii lower Hl _ _ _ _ fs [] H).
Qed.

(** ** C1: the documented example *)

Lemma example_ascii_names : ascii_names Example.root.
Proof.
  repeat (constructor; try (repeat split; try (repeat constructor))).
Qed.

(** C1. The tree with children [.hidden/], [b.txt] and [A/] (which holds
    [c.txt]) renders as the four lines [root], [├── A], [│   └── c.txt],
    [└── b.txt]: [A] before [b.txt], no [.hidden], the tee and the bar for
    [A], the corner for [c.txt] and for [b.txt].  Any [lower] that acts on
    ASCII names as Python's does gives this. *)
Theorem C1_example_render (lower : str -> str) :
  (forall s, isascii s -> lower s = ascii_lower s) ->
  render lower (lit "root") Example.root = Return Example.expected.
Proof.
  intros H. rewrite (render_ascii lower _ _ H example_ascii_names).
  reflexivity.
Qed.

Lemma C1_example_render_witness :
  render ascii_lower (lit "root") Example.root = Return Example.expected.
Proof.
  apply (C1_example_render ascii_lower). intros s _. reflexivity.
Defined.

(** ** Lines *)

Lemma unlines_app (a b : list str) : unlines (a ++ b) = unlines a ++ unlines b.
Proof. unfold unlines. now rewrite map_app, concat_app. Qed.

Lemma unlines_cons (x : str) (a : list str) :
  unlines (x :: a) = x ++ newline ++ unlines a.
Proof. unfold unlines. simpl. now rewrite <- app_assoc. Qed.

Lemma unlines_ends (x : str) (a : list str) :
  exists t, unlines (x :: a) = t ++ newline.
Proof.
  revert x. induction a as [|y a IH]; intros x.
  - exists x. unfold unlines. simpl. now rewrite app_nil_r.
  - destruct (IH y) as [t Ht]. exists (x ++ newline ++ t).
    rewrite unlines_cons, Ht. now rewrite <- !app_assoc.
Qed.

Lemma count_entry_eq (e : DirEntry) :
  count_entry e
  = if hidden e then O else S (if is_dir e then count_dir (path e) else O).
Proof. destruct e as [n d [x|l]]; reflexivity. Qed.

Lemma list_sum_perm (l l' : list nat) :
  Permutation l l' -> list_sum l = list_sum l'.
Proof. induction 1; simpl; lia. Qed.

Lemma list_sum_filter {A} (f : A -> nat) (p : A -> bool) (l : list A) :
  (forall x, p x = false -> f x = O) ->
  list_sum (map f (filter p l)) = list_sum (map f l).
Proof.
  intros H. induction l as [|x l IH]; simpl; [reflexivity|].
  destruct (p x) eqn:Hp; simpl; rewrite IH; [reflexivity|].
  now rewrite (H x Hp).
Qed.

Lemma count_entries_of (lower : str -> str) (l : list DirEntry) :
  list_sum (map count_entry (entries_of lower l)) = list_sum (map count_entry l).
Proof.
  unfold entries_of. rewrite list_sum_filter.
  - apply list_sum_perm, Permutation_map, sorted_perm.
  - intros e He. rewrite count_entry_eq.
    apply negb_false_iff in He. now rewrite He.
Qed.

Section Lines.
Variable lower : str -> str.
Variables lst te br : str.

Lemma emit_loop_lines (rec : directory -> str -> outcome unit * str)
    (prefix : str) (n : Z) (l : list DirEntry) :
  (forall e p sub, In e l -> rec (path e) p = (Return tt, sub) ->
     exists lines, sub = unlines lines /\ length lines = count_dir (path e)) ->
  (forall e, In e l -> hidden e = false) ->
  forall idx out, emit_loop lst te br rec prefix n idx l = (Return tt, out) ->
    exists lines, out = unlines lines /\ length lines = list_sum (map count_entry l).
Proof.
  induction l as [|e l IH]; intros Hrec Hvis idx out H; simpl in H.
  - injection H as <-. exists []. now split.
  - assert (He : hidden e = false) by (apply Hvis; now left).
    specialize (IH (fun e p sub Hin => Hrec e p sub (or_intror Hin))
                   (fun e Hin => Hvis e (or_intror Hin)) (idx + 1)%Z).
    simpl. rewrite count_entry_eq, He.
    set (b := is_last_at n idx) in *.
    assert (Hsub : forall r sub,
               (if is_dir e then rec (path e) (prefix ++ group br b)
                else (Return tt, [])) = (r, sub) ->
               r = Return tt ->
               exists lines, sub = unlines lines /\ length lines = if is_dir e then count_dir (path e) else O).
    { intros r sub Hs ->. destruct (is_dir e).
      - apply (Hrec e _ sub (or_introl eq_refl) Hs).
      - injection Hs as <-. exists []. now split. }
    destruct (if is_dir e then _ else _) as [r sub].
    specialize (Hsub r sub eq_refl).
    destruct r as [[]|x|]; try discriminate.
    destruct (Hsub eq_refl) as (ls & -> & Hlen).
    destruct (emit_loop lst te br rec prefix n (idx + 1) l) as [r' rest].
    injection H as -> <-.
    destruct (IH rest eq_refl) as (lr & -> & Hlenr).
    exists ((prefix ++ connector lst te b ++ name e) :: ls ++ lr).
    split.
    + rewrite unlines_cons, unlines_app. unfold line.
      now rewrite <- !app_assoc.
    + simpl. rewrite length_app. lia.
Qed.

Lemma emit_lines (fuel : nat) :
  forall d p out, emit lower lst te br fuel d p = (Return tt, out) ->
    exists lines, out = unlines lines /\ length lines = count_dir d.
Proof.
  induction fuel as [|fuel IH]; intros d p out H; [discriminate|].
  destruct d as [x|l]; [discriminate|].
  rewrite emit_S_inr in H.
  apply emit_loop_lines in H.
  - simpl. now rewrite <- (count_entries_of lower).
  - intros e q sub _. apply IH.
  - intros e He. now apply entries_of_In in He.
Qed.

End Lines.

(** ** What a walk writes into an empty buffer *)

Lemma walk_text_eq (lower : str -> str) (d : directory) (prefix : str) :
  text lower last_glyph tee_glyph bar_glyph d prefix
  = (walk_result lower d prefix, walk_text lower d prefix).
Proof.
  unfold walk_result, walk_text, _walk_directory.
  rewrite (walk_emit lower last_glyph tee_glyph bar_glyph)
    by (repeat split).
  unfold appended, text. cbn [fst snd tree_str set_tree_str __init__ app].
  now destruct (emit _ _ _ _ _ d prefix).
Qed.

Lemma render_walk (lower : str -> str) (p : str) (fs : directory) :
  render lower p fs
  = finish (walk_result lower fs [])
           (to_str (Path p) ++ newline ++ walk_text lower fs []).
Proof. rewrite render_body. unfold body. now rewrite walk_text_eq. Qed.

(** A successful render is the root line and as many newline-closed pieces
    as there are entries to count. *)
Lemma render_lines (lower : str -> str) (p : str) (fs : directory) (t : str) :
  render lower p fs = Return t ->
  exists lines,
    t = to_str (Path p) ++ newline ++ unlines lines
    /\ length lines = count_dir fs.
Proof.
  rewrite render_body. unfold body, text.
  destruct (emit _ _ _ _ _ fs []) as [[[]|e|] out] eqn:He;
    cbn [fst snd finish]; try discriminate.
  intros [= <-].
  destruct (emit_lines _ _ _ _ _ _ _ _ He) as (lines & -> & Hn).
  now exists lines.
Qed.

(** ** C4: what reaches standard output *)

(** C4, as stated, fails: [print] closes the tree, which already ends in a
    newline, with one more. *)
Lemma C4_counterexample :
  ~ (forall p fs t, render ascii_lower p fs = Return t ->
       snd (print_directory_tree ascii_lower p fs []) = t).
Proof.
  intros H.
  specialize (H (lit "root") Example.root Example.expected eq_refl).
  vm_compute in H. discriminate H.
Qed.

(** C4, amended.  When the tree is generated, standard output receives the
    rendered tree, which ends in the newline of its last line, followed by
    one further newline; the call returns normally. *)
Theorem C4_stdout_tree_then_newline (lower : str -> str)
    (p : str) (fs : directory) (t stdout : str) :
  render lower p fs = Return t ->
  print_directory_tree lower p fs stdout = (Return tt, stdout ++ t ++ newline)
  /\ exists t', t = t' ++ newline.
Proof.
  intros H. split.
  - rewrite print_directory_tree_render, H. reflexivity.
  - destruct (render_lines lower p fs t H) as (lines & -> & _).
    rewrite <- unlines_cons. apply unlines_ends.
Qed.

Lemma C4_stdout_tree_then_newline_witness :
  print_directory_tree ascii_lower (lit "root") Example.root []
  = (Return tt, [] ++ Example.expected ++ newline)
  /\ exists t', Example.expected = t' ++ newline.
Proof.
  apply (C4_stdout_tree_then_newline ascii_lower (lit "root") Example.root).
  reflexivity.
Defined.

(** ** C8: generating twice *)

(** C8. A second [generate_tree] on the same object, over the same file
    system, returns what the first returned and leaves the object as the
    first left it: the buffer is reset at the start of each call.  In
    particular the second result on a fresh object is [render]'s. *)
Theorem C8_generate_tree_twice (lower : str -> str)
    (fs : directory) (self : DirectoryTree) :
  generate_tree lower fs (snd (generate_tree lower fs self))
  = generate_tree lower fs self
  /\ forall p,
       fst (generate_tree lower fs (snd (generate_tree lower fs (__init__ p))))
       = render lower p fs.
Proof.
  assert (H : forall s, generate_tree lower fs (snd (generate_tree lower fs s))
                        = generate_tree lower fs s).
  { intros s. rewrite (generate_tree_text lower fs s).
    cbn [snd]. rewrite generate_tree_text. reflexivity. }
  split; [apply H|]. intros p. now rewrite H.
Qed.

(** ** C9: the order of sorting and filtering *)

Section SpecOrderFacts.
Variable lower : str -> str.

#[local] Abbreviation walk_spec_order := (walk_spec_order lower).

Lemma for_enumerate_ext {A} (l : list A) (f g : Z -> A -> M unit) :
  (forall idx x self, In x l -> f idx x self = g idx x self) ->
  forall idx self, for_enumerate idx l f self = for_enumerate idx l g self.
Proof.
  induction l as [|x l IH]; intros H idx self; [reflexivity|].
  cbn [for_enumerate]. unfold bind. rewrite (H idx x self) by now left.
  destruct (g idx x self) as [[[]|e|] self']; try reflexivity.
  apply IH. intros; apply H; now right.
Qed.

Lemma walk_spec_order_eq (fuel : nat) :
  forall d prefix self,
    walk_spec_order fuel d prefix self = walk lower fuel d prefix self.
Proof.
  induction fuel as [|fuel IH]; intros d prefix self; [reflexivity|].
  destruct d as [e|l]; [reflexivity|].
  cbn [walk walk_spec_order os_scandir]. unfold bind at 1. unfold ret at 1.
  symmetry. unfold bind at 1. unfold ret at 1.
  rewrite filter_sorted.
  apply for_enumerate_ext. intros idx x s _.
  unfold bind, get, put_tree_str.
  destruct (is_dir x); [|reflexivity].
  now rewrite IH.
Qed.

End SpecOrderFacts.

(** C9. Sorting the children and then dropping the hidden ones, as the code
    does, gives the list that dropping first and sorting afterwards gives,
    and that list is in case-insensitive order; so the walk, the generated
    tree and the rendering are the same in either order. *)
Theorem C9_sort_then_filter_is_filter_then_sort (lower : str -> str) :
  (forall l : list DirEntry,
     filter (fun e => negb (hidden e)) (sorted (fun e => lower (name e)) l)
     = sorted (fun e => lower (name e)) (filter (fun e => negb (hidden e)) l)
     /\ StronglySorted (key_le (fun e => lower (name e)))
          (filter (fun e => negb (hidden e))
                  (sorted (fun e => lower (name e)) l)))
  /\ (forall fuel d prefix self,
        walk lower fuel d prefix self
        = walk_spec_order lower fuel d prefix self)
  /\ (forall fs self,
        generate_tree lower fs self = generate_tree_spec_order lower fs self)
  /\ (forall p fs, render lower p fs = render_spec_order lower p fs).
Proof.
  assert (Hg : forall fs self,
             generate_tree lower fs self
             = generate_tree_spec_order lower fs self).
  { intros fs self. unfold generate_tree, generate_tree_spec_order,
      _walk_directory, bind, get, put_tree_str.
    now rewrite walk_spec_order_eq. }
  split; [|split; [|split]].
  - intros l. split; [apply filter_sorted|].
    rewrite filter_sorted. apply sorted_ordered.
  - intros. symmetry. apply walk_spec_order_eq.
  - exact Hg.
  - intros p fs. unfold render, render_spec_order. now rewrite Hg.
Qed.

(** ** C5: hidden entries do not count *)

Lemma entries_of_visible (lower : str -> str) (l : list DirEntry) :
  entries_of lower l = sorted (fun e => lower (name e)) (filter visible l).
Proof. apply filter_sorted. Qed.

Lemma emit_same_visible (lower : str -> str) (lst te br : str)
    (fuel : nat) (l l' : list DirEntry) (prefix : str) :
  filter visible l = filter visible l' ->
  emit lower lst te br fuel (inr l) prefix
  = emit lower lst te br fuel (inr l') prefix.
Proof.
  intros H. destruct fuel as [|fuel]; [reflexivity|].
  now rewrite !emit_S_inr, !entries_of_visible, H.
Qed.

Lemma text_same_visible (lower : str -> str) (lst te br : str)
    (l l' : list DirEntry) (prefix : str) :
  filter visible l = filter visible l' ->
  text lower lst te br (inr l) prefix = text lower lst te br (inr l') prefix.
Proof.
  intros H. rewrite !text_inr, !entries_of_visible, H. reflexivity.
Qed.

(** C5. The dot test comes before the index of the last sibling is taken:
    two listings with the same visible entries are walked alike, at every
    level and whatever hidden entries either holds, so the connectors do not
    depend on hidden entries; and a listing with no visible entry (one that
    agrees in this way with the empty listing) renders as the root line
    alone. *)
Theorem C5_hidden_entries_do_not_count (lower : str -> str)
    (l l' : list DirEntry) :
  filter visible l = filter visible l' ->
  (forall fuel prefix self,
     walk lower fuel (inr l) prefix self = walk lower fuel (inr l') prefix self)
  /\ (forall p, render lower p (inr l) = render lower p (inr l'))
  /\ (l' = [] ->
      forall p, render lower p (inr l) = Return (to_str (Path p) ++ newline)).
Proof.
  intros H. split; [|split].
  - intros fuel prefix self.
    rewrite !(walk_emit lower (last_ self) (tee self) (branch self))
      by (repeat split).
    now rewrite (emit_same_visible _ _ _ _ _ l l' _ H).
  - intros p. rewrite !render_body. unfold body.
    now rewrite (text_same_visible _ _ _ _ l l' _ H).
  - intros -> p. rewrite render_body. unfold body.
    rewrite text_inr, entries_of_visible, H.
    cbn [filter sorted emit_loop fst snd finish].
    now rewrite app_nil_r.
Qed.

Lemma C5_hidden_entries_do_not_count_witness :
  (forall fuel prefix self,
     walk ascii_lower fuel
       (inr [Example.file ".a"; Example.dir ".b" [Example.file "c"]])
       prefix self
     = walk ascii_lower fuel (inr []) prefix self)
  /\ (forall p,
        render ascii_lower p
          (inr [Example.file ".a"; Example.dir ".b" [Example.file "c"]])
        = render ascii_lower p (inr []))
  /\ (@nil DirEntry = [] ->
      forall p,
        render ascii_lower p
          (inr [Example.file ".a"; Example.dir ".b" [Example.file "c"]])
        = Return (to_str (Path p) ++ newline)).
Proof.
  apply (C5_hidden_entries_do_not_count ascii_lower
           [Example.file ".a"; Example.dir ".b" [Example.file "c"]] []).
  reflexivity.
Defined.

(** A hidden entry that sorts after the only visible one ([-] comes before
    [.]) does not take the corner from it. *)
Example hidden_sorts_last :
  render ascii_lower (lit "d")
    (inr [Example.file ".b"; Example.file "-a"])
  = Return (lit "d" ++ newline ++ last_glyph ++ lit "-a" ++ newline).
Proof. reflexivity. Qed.

(** ** C2: a listing that fails *)

Section Raises.
Variable lower : str -> str.
Variables lst te br : str.

#[local] Abbreviation emit' := (emit lower lst te br).
#[local] Abbreviation emit_loop' := (emit_loop lst te br).

(** What the loop raises was raised by the walk of one of its entries. *)
Lemma emit_loop_raise_sound (rec : directory -> str -> outcome unit * str)
    (prefix : str) (n : Z) (l : list DirEntry) :
  forall idx x out,
    emit_loop' rec prefix n idx l = (Raise x, out) ->
    exists d q sub, In d l /\ is_dir d = true
                    /\ rec (path d) q = (Raise x, sub).
Proof.
  induction l as [|e l IH]; intros idx x out H; simpl in H; [discriminate|].
  destruct (is_dir e) eqn:Hd.
  - destruct (rec (path e) _) as [[[]|y|] sub] eqn:Hr.
    + destruct (emit_loop' rec prefix n (idx + 1) l) as [r' rest] eqn:Hl.
      injection H as -> <-.
      destruct (IH _ _ _ Hl) as (d & q & s & Hin & His & Hrec).
      exists d, q, s. auto using in_cons.
    + injection H as -> <-.
      exists e, (prefix ++ group br (is_last_at n idx)), sub.
      split; [now left|]. auto.
    + discriminate.
  - destruct (emit_loop' rec prefix n (idx + 1) l) as [r' rest] eqn:Hl.
    injection H as -> <-.
    destruct (IH _ _ _ Hl) as (d & q & s & Hin & His & Hrec).
    exists d, q, s. auto using in_cons.
Qed.

Lemma emit_raise_sound (fuel : nat) :
  forall d p x out, emit' fuel d p = (Raise x, out) -> raises_in d x.
Proof.
  induction fuel as [|fuel IH]; intros d p x out H; [discriminate|].
  destruct d as [e|l].
  - injection H as <- _. constructor.
  - rewrite emit_S_inr in H.
    apply emit_loop_raise_sound in H.
    destruct H as (d & q & sub & Hin & His & Hrec).
    apply entries_of_In in Hin. destruct Hin as [Hin Hvis].
    apply (raises_below l d x Hin Hvis His). now apply (IH _ _ _ _ Hrec).
Qed.

(** If the walk of one entry would raise, the loop raises: that exception or
    one met before it.  Nothing is skipped. *)
Lemma emit_loop_raise_complete (rec : directory -> str -> outcome unit * str)
    (prefix : str) (n : Z) (l : list DirEntry) :
  (forall e q, In e l -> fst (rec (path e) q) <> OutOfFuel) ->
  forall d, In d l -> is_dir d = true ->
    (forall q, exists x, fst (rec (path d) q) = Raise x) ->
    forall idx, exists x, fst (emit_loop' rec prefix n idx l) = Raise x.
Proof.
  induction l as [|e l IH]; intros Hfuel d Hin His Hd idx; [easy|].
  simpl.
  destruct (is_dir e) eqn:He.
  - pose proof (Hfuel e (prefix ++ group br (is_last_at n idx))
                  (or_introl eq_refl)) as Hf.
    destruct (rec (path e) _) as [[[]|y|] sub] eqn:Hr; simpl in Hf.
    + destruct Hin as [<-|Hin].
      * destruct (Hd (prefix ++ group br (is_last_at n idx))) as [x Hx].
        rewrite Hr in Hx. discriminate.
      * destruct (IH (fun e q H => Hfuel e q (or_intror H)) d Hin His Hd
                     (idx + 1)%Z) as [x Hx].
        destruct (emit_loop' rec prefix n (idx + 1) l) as [r' rest].
        exists x. exact Hx.
    + now exists y.
    + easy.
  - destruct Hin as [<-|Hin]; [congruence|].
    destruct (IH (fun e q H => Hfuel e q (or_intror H)) d Hin His Hd
                 (idx + 1)%Z) as [x Hx].
    destruct (emit_loop' rec prefix n (idx + 1) l) as [r' rest].
    exists x. exact Hx.
Qed.

Lemma emit_raise_complete (d : directory) (e : exn) :
  raises_in d e ->
  forall fuel p, (dir_depth d < fuel)%nat ->
    exists x, fst (emit' fuel d p) = Raise x.
Proof.
  induction 1 as [e|l d e Hin Hvis His Hr IH]; intros fuel p Hfuel.
  - destruct fuel; [lia|]. now exists e.
  - destruct fuel as [|fuel]; [lia|]. rewrite emit_S_inr.
    assert (Hdepth : forall e, In e (entries_of lower l) ->
                               (dir_depth (path e) < fuel)%nat).
    { intros e0 He0. apply entries_of_In in He0. destruct He0 as [He0 _].
      apply entry_depth_le in He0. rewrite entry_depth_path in He0.
      simpl in Hfuel. lia. }
    apply (emit_loop_raise_complete (emit' fuel) p _ (entries_of lower l))
      with (d := d).
    + intros e0 q He0. apply emit_total. now apply Hdepth.
    + apply entries_of_In. now split.
    + exact His.
    + intros q. apply IH. apply Hdepth. apply entries_of_In. now split.
Qed.

End Raises.

(** C2. When [os.scandir] fails for the root or for any directory the walk
    enters, [render] raises one of those failures, as it was raised; the
    entry point catches it, returns normally, and standard output receives
    [Error generating directory tree: ] followed by the failure's text and
    nothing of the tree. *)
Theorem C2_listing_error_is_reported (lower : str -> str)
    (fs : directory) (e : exn) :
  raises_in fs e ->
  exists e',
    raises_in fs e'
    /\ forall p stdout,
         render lower p fs = Raise e'
         /\ print_directory_tree lower p fs stdout
            = (Return tt,
               stdout ++ lit "Error generating directory tree: "
                      ++ exn_str e' ++ newline).
Proof.
  intros H.
  destruct (emit_raise_complete lower last_glyph tee_glyph bar_glyph fs e H
              (S (dir_depth fs)) [] (Nat.lt_succ_diag_r _)) as [x Hx].
  exists x. split.
  - destruct (emit lower last_glyph tee_glyph bar_glyph (S (dir_depth fs)) fs [])
      as [r out] eqn:He.
    simpl in Hx. subst r. exact (emit_raise_sound _ _ _ _ _ _ _ _ _ He).
  - intros p stdout.
    assert (Hr : render lower p fs = Raise x).
    { rewrite render_body. unfold body, text. now rewrite Hx. }
    split; [exact Hr|].
    rewrite print_directory_tree_render, Hr. unfold print.
    now rewrite <- app_assoc.
Qed.

Lemma C2_listing_error_is_reported_witness :
  exists e',
    raises_in (inr [Example.file "a";
                    {| name := lit "locked"; is_dir := true;
                       path := inl (OSError (lit "Permission denied")) |};
                    Example.file "z"]) e'
    /\ forall p stdout,
         render ascii_lower p
           (inr [Example.file "a";
                 {| name := lit "locked"; is_dir := true;
                    path := inl (OSError (lit "Permission denied")) |};
                 Example.file "z"]) = Raise e'
         /\ print_directory_tree ascii_lower p
              (inr [Example.file "a";
                    {| name := lit "locked"; is_dir := true;
                       path := inl (OSError (lit "Permission denied")) |};
                    Example.file "z"]) stdout
            = (Return tt,
               stdout ++ lit "Error generating directory tree: "
                      ++ exn_str e' ++ newline).
Proof.
  apply (C2_listing_error_is_reported ascii_lower _
           (OSError (lit "Permission denied"))).
  apply raises_below with
    (d := {| name := lit "locked"; is_dir := true;
             path := inl (OSError (lit "Permission denied")) |});
    [simpl; auto | reflexivity | reflexivity | apply raises_here].
Defined.

(** ** Where an entry's line stands *)

Lemma groups_snoc (flags : list bool) (b : bool) :
  groups (flags ++ [b]) = groups flags ++ group bar_glyph b.
Proof.
  unfold groups. rewrite map_app, concat_app. simpl. now rewrite app_nil_r.
Qed.

Lemma groups_length (flags : list bool) :
  length (groups flags) = (4 * length flags)%nat.
Proof.
  induction flags as [|b flags IH]; [reflexivity|].
  unfold groups in *. simpl. rewrite length_app, IH.
  destruct b; simpl; lia.
Qed.

Section Position.
Variable lower : str -> str.
Variables lst te br : str.

#[local] Abbreviation loop := (emit_loop lst te br).
#[local] Abbreviation subtree := (subtree br).

(** A loop that returns has written, for its [i]-th entry, the entry's line
    and then the entry's subtree. *)
Lemma emit_loop_nth (rec : directory -> str -> outcome unit * str)
    (prefix : str) (n : Z) (l : list DirEntry) :
  forall idx out i e,
    loop rec prefix n idx l = (Return tt, out) ->
    nth_error l i = Some e ->
    exists pre sub post,
      out = pre ++ line lst te prefix (is_last_at n (idx + Z.of_nat i)) e
                ++ sub ++ post
      /\ subtree rec prefix (is_last_at n (idx + Z.of_nat i)) e sub.
Proof.
  induction l as [|x l IH]; intros idx out i e H Hi; [now destruct i|].
  simpl in H.
  destruct (if is_dir x then _ else _) as [r sub] eqn:Hsub.
  destruct r as [[]|y|]; try discriminate.
  destruct (loop rec prefix n (idx + 1) l) as [r' rest] eqn:Hrest.
  injection H as -> <-.
  destruct i as [|i]; simpl in Hi.
  - injection Hi as <-. exists [], sub, rest.
    rewrite Z.add_0_r. split; [reflexivity|].
    unfold subtree. destruct (is_dir x); [exact Hsub | congruence].
  - destruct (IH _ _ _ _ Hrest Hi) as (pre & s & post & -> & Hs).
    replace (idx + 1 + Z.of_nat i)%Z with (idx + Z.of_nat (S i))%Z in * by lia.
    exists (line lst te prefix (is_last_at n idx) x ++ sub ++ pre), s, post.
    split; [now rewrite <- !app_assoc | exact Hs].
Qed.

(** Two entries of the loop: the line of the earlier one, its subtree, and
    further on the line of the later one. *)
Lemma emit_loop_two (rec : directory -> str -> outcome unit * str)
    (prefix : str) (n : Z) (l : list DirEntry) :
  forall idx out i j a b,
    loop rec prefix n idx l = (Return tt, out) ->
    nth_error l i = Some a -> nth_error l j = Some b -> (i < j)%nat ->
    exists pre sub mid post,
      out = pre ++ line lst te prefix (is_last_at n (idx + Z.of_nat i)) a
                ++ sub ++ mid
                ++ line lst te prefix (is_last_at n (idx + Z.of_nat j)) b
                ++ post
      /\ subtree rec prefix (is_last_at n (idx + Z.of_nat i)) a sub.
Proof.
  induction l as [|x l IH]; intros idx out i j a b H Hi Hj Hij;
    [now destruct i|].
  simpl in H.
  destruct (if is_dir x then _ else _) as [r sub] eqn:Hsub.
  destruct r as [[]|y|]; try discriminate.
  destruct (loop rec prefix n (idx + 1) l) as [r' rest] eqn:Hrest.
  injection H as -> <-.
  destruct j as [|j]; [lia|]. simpl in Hj.
  destruct i as [|i]; simpl in Hi.
  - injection Hi as <-.
    destruct (emit_loop_nth _ _ _ _ _ _ _ _ Hrest Hj)
      as (pre & s & post & -> & _).
    replace (idx + 1 + Z.of_nat j)%Z with (idx + Z.of_nat (S j))%Z in * by lia.
    exists [], sub, pre, (s ++ post).
    rewrite Z.add_0_r. split; [cbn [app]; now rewrite <- ?app_assoc|].
    unfold subtree. destruct (is_dir x); [exact Hsub | congruence].
  - destruct (IH _ _ _ _ _ _ Hrest Hi Hj ltac:(lia))
      as (pre & s & mid & post & -> & Hs).
    replace (idx + 1 + Z.of_nat i)%Z with (idx + Z.of_nat (S i))%Z in * by lia.
    replace (idx + 1 + Z.of_nat j)%Z with (idx + Z.of_nat (S j))%Z in * by lia.
    exists (line lst te prefix (is_last_at n idx) x ++ sub ++ pre), s, mid, post.
    split; [now rewrite <- !app_assoc | exact Hs].
Qed.

End Position.

Section Reached.
Variable lower : str -> str.

#[local] Abbreviation text0 := (text lower last_glyph tee_glyph bar_glyph).

(** The walk of a directory that is reached is part of the walk of the
    root, made with one group of prefix per ancestor. *)
Lemma reached_text (root : list DirEntry) (p : str) (out : str)
    (flags : list bool) (l : list DirEntry) :
  text0 (inr root) p = (Return tt, out) ->
  reached lower root flags l ->
  exists pre sub post,
    out = pre ++ sub ++ post
    /\ text0 (inr l) (p ++ groups flags) = (Return tt, sub).
Proof.
  intros Hout. induction 1 as [|flags l i d l' Hr IH Hi Hd Hp].
  - exists [], out, []. unfold groups. simpl. rewrite !app_nil_r. auto.
  - destruct IH as (pre & sub & post & -> & Hsub).
    rewrite text_inr in Hsub.
    destruct (emit_loop_nth _ _ _ _ _ _ _ _ _ _ _ Hsub Hi)
      as (pre' & s & post' & -> & Hs).
    unfold subtree in Hs. rewrite Hd, Hp in Hs. simpl in Hs.
    exists (pre ++ pre' ++ line last_glyph tee_glyph (p ++ groups flags)
              (is_last_at (len (entries_of lower l)) (Z.of_nat i)) d),
      s, (post' ++ post).
    split; [now rewrite <- !app_assoc|].
    now rewrite groups_snoc, app_assoc.
Qed.

Lemma reached_render (p : str) (root : list DirEntry) (t : str)
    (flags : list bool) (l : list DirEntry) :
  render lower p (inr root) = Return t ->
  reached lower root flags l ->
  exists pre sub post,
    t = pre ++ sub ++ post
    /\ text0 (inr l) (groups flags) = (Return tt, sub).
Proof.
  rewrite render_body. unfold body.
  destruct (text0 (inr root) []) as [[[]|x|] out] eqn:Hout;
    cbn [fst snd finish]; try discriminate.
  intros [= <-] Hr.
  destruct (reached_text _ _ _ _ _ Hout Hr) as (pre & sub & post & -> & Hs).
  exists (to_str (Path p) ++ newline ++ pre), sub, post.
  split; [now rewrite <- !app_assoc | exact Hs].
Qed.

Lemma entries_of_ordered (l : list DirEntry) :
  StronglySorted (key_le (fun e => lower (name e))) (entries_of lower l).
Proof. rewrite entries_of_visible. apply sorted_ordered. Qed.

End Reached.

(** ** C6: siblings come in case-insensitive order *)

(** C6. In every directory the walk enters, of two visible entries the one
    with the smaller lowered name has its line first, then its whole
    subtree, and only further on comes the line of the other. *)
Theorem C6_siblings_in_order (lower : str -> str) (p : str)
    (root : list DirEntry) (t : str) (flags : list bool)
    (l : list DirEntry) (a b : DirEntry) :
  render lower p (inr root) = Return t ->
  reached lower root flags l ->
  In a l -> In b l -> hidden a = false -> hidden b = false ->
  ltb (lower (name a)) (lower (name b)) = true ->
  exists pre sub mid post cb,
    t = pre ++ (groups flags ++ tee_glyph ++ name a ++ newline)
            ++ sub ++ mid
            ++ (groups flags ++ cb ++ name b ++ newline) ++ post
    /\ sub = (if is_dir a
              then walk_text lower (path a) (groups flags ++ bar_glyph)
              else [])
    /\ (cb = tee_glyph \/ cb = last_glyph).
Proof.
  intros Ht Hr Ha Hb Hva Hvb Hlt.
  destruct (reached_render lower p root t flags l Ht Hr)
    as (pre & out & post & -> & Hout).
  rewrite text_inr in Hout.
  assert (Ha' : In a (entries_of lower l)) by (apply entries_of_In; auto).
  assert (Hb' : In b (entries_of lower l)) by (apply entries_of_In; auto).
  apply In_nth_error in Ha', Hb'.
  destruct Ha' as [i Hi], Hb' as [j Hj].
  assert (Hij : (i < j)%nat).
  { destruct (Nat.lt_ge_cases i j) as [|Hge]; [assumption|].
    pose proof (ordered_nth _ _ _ _ _ _ (entries_of_ordered lower l)
                  Hj Hi Hge) as Hle.
    unfold key_le in Hle. congruence. }
  destruct (emit_loop_two _ _ _ _ _ _ _ _ _ _ _ _ _ Hout Hi Hj Hij)
    as (pre' & sub & mid & post' & -> & Hsub).
  assert (Hjn : (j < length (entries_of lower l))%nat)
    by (apply nth_error_Some; congruence).
  assert (Hlast : is_last_at (len (entries_of lower l)) (0 + Z.of_nat i)
                  = false).
  { unfold is_last_at, len. apply Z.eqb_neq. lia. }
  rewrite Hlast in *.
  exists (pre ++ pre'), sub, mid, (post' ++ post),
    (connector last_glyph tee_glyph
       (is_last_at (len (entries_of lower l)) (0 + Z.of_nat j))).
  split; [|split].
  - unfold line. cbn [connector]. now rewrite <- !app_assoc.
  - unfold subtree in Hsub. destruct (is_dir a); [|exact Hsub].
    rewrite walk_text_eq in Hsub. cbn [group] in Hsub. congruence.
  - destruct (is_last_at _ _); simpl; auto.
Qed.

Lemma C6_siblings_in_order_witness :
  exists pre sub mid post cb,
    Example.expected
    = pre ++ (groups [] ++ tee_glyph ++ name (Example.dir "A" [Example.file "c.txt"])
                ++ newline)
          ++ sub ++ mid
          ++ (groups [] ++ cb ++ name (Example.file "b.txt") ++ newline)
          ++ post
    /\ sub = (if is_dir (Example.dir "A" [Example.file "c.txt"])
              then walk_text ascii_lower
                     (path (Example.dir "A" [Example.file "c.txt"]))
                     (groups [] ++ bar_glyph)
              else [])
    /\ (cb = tee_glyph \/ cb = last_glyph).
Proof.
  apply (C6_siblings_in_order ascii_lower (lit "root")
           [Example.dir ".hidden" []; Example.file "b.txt";
            Example.dir "A" [Example.file "c.txt"]]
           Example.expected []
           [Example.dir ".hidden" []; Example.file "b.txt";
            Example.dir "A" [Example.file "c.txt"]]).
  - reflexivity.
  - apply reached_root.
  - simpl; auto.
  - simpl; auto.
  - reflexivity.
  - reflexivity.
  - reflexivity.
Defined.

(** ** The lines of the tree, one per entry met *)

Lemma shift_nil (it : item) : shift [] it = it.
Proof. now destruct it as [[f b] e]. Qed.

Lemma shift_shift (fl g : list bool) (it : item) :
  shift fl (shift g it) = shift (fl ++ g) it.
Proof.
  unfold shift. cbn [item_flags item_last item_entry fst snd].
  now rewrite app_assoc.
Qed.

Lemma entries_below_eq (e : DirEntry) :
  entries_below e
  = if hidden e then []
    else e :: (if is_dir e then reachable (path e) else []).
Proof. destruct e as [n d [x|l]]; reflexivity. Qed.

Lemma flat_map_filter_nil {A B} (f : A -> list B) (p : A -> bool)
    (l : list A) :
  (forall x, p x = false -> f x = []) ->
  flat_map f (filter p l) = flat_map f l.
Proof.
  intros H. induction l as [|x l IH]; simpl; [reflexivity|].
  destruct (p x) eqn:Hp; simpl; rewrite IH; [reflexivity|].
  now rewrite (H x Hp).
Qed.

Lemma entries_below_entries_of (lower : str -> str) (l : list DirEntry) :
  Permutation (flat_map entries_below (entries_of lower l))
              (flat_map entries_below l).
Proof.
  unfold entries_of. rewrite flat_map_filter_nil.
  - apply Permutation_flat_map, sorted_perm.
  - intros e He. rewrite entries_below_eq.
    apply negb_false_iff in He. now rewrite He.
Qed.

Section Located.
Variable lower : str -> str.

#[local] Abbreviation reached_ := (reached lower).
#[local] Abbreviation located_ := (located lower).
#[local] Abbreviation in_loop_ := (in_loop lower).

Lemma reached_nil (root l : list DirEntry) : reached_ root [] l -> l = root.
Proof.
  intros H. inversion H as [|flags l0 i d l' Hr Hi Hd Hp Hf]; [reflexivity|].
  now destruct flags.
Qed.

(** A directory reached from a directory of the root is reached from the
    root, one flag further. *)
Lemma reached_cons (root : list DirEntry) (i : nat) (d : DirEntry)
    (l' : list DirEntry) (f : list bool) (l'' : list DirEntry) :
  nth_error (entries_of lower root) i = Some d ->
  is_dir d = true -> path d = inr l' ->
  reached_ l' f l'' ->
  reached_ root
    (is_last_at (len (entries_of lower root)) (Z.of_nat i) :: f) l''.
Proof.
  intros Hi Hd Hp. induction 1 as [|f l0 j d1 l1 Hr IH Hj Hd1 Hp1].
  - exact (reached_child lower root [] root i d l' (reached_root lower root)
             Hi Hd Hp).
  - exact (reached_child lower root _ l0 j d1 l1 IH Hj Hd1 Hp1).
Qed.

Lemma reached_uncons (root : list DirEntry) (fl : list bool)
    (l'' : list DirEntry) :
  reached_ root fl l'' ->
  forall b f, fl = b :: f ->
    exists i d l',
      nth_error (entries_of lower root) i = Some d
      /\ is_dir d = true /\ path d = inr l'
      /\ b = is_last_at (len (entries_of lower root)) (Z.of_nat i)
      /\ reached_ l' f l''.
Proof.
  induction 1 as [|f0 l0 j d1 l1 Hr IH Hj Hd1 Hp1]; intros b f E;
    [discriminate|].
  destruct f0 as [|b0 f0]; simpl in E; injection E as <- <-.
  - apply reached_nil in Hr. subst l0.
    exists j, d1, l1. repeat split; auto. constructor.
  - destruct (IH b0 f0 eq_refl) as (i & d & l' & Hi & Hd & Hp & Hb & Hr').
    exists i, d, l'. repeat split; auto.
    exact (reached_child lower l' f0 l0 j d1 l1 Hr' Hj Hd1 Hp1).
Qed.

(** The entries the walk of [l] meets are those of its loop and those met
    below them. *)
Lemma located_in_loop (l : list DirEntry) (it : item) :
  located_ l it
  <-> in_loop_ (len (entries_of lower l)) 0 (entries_of lower l) it.
Proof.
  destruct it as [[f b] e]. unfold located, in_loop.
  cbn [item_flags item_last item_entry fst snd]. split.
  - intros (l0 & i & Hr & Hi & Hb). destruct f as [|b0 f].
    + apply reached_nil in Hr. subst l0.
      exists i, e. split; [exact Hi|]. left. now subst b.
    + destruct (reached_uncons _ _ _ Hr b0 f eq_refl)
        as (i0 & d & l' & Hi0 & Hd & Hp & Hb0 & Hr').
      exists i0, d. split; [exact Hi0|]. right. split; [exact Hd|].
      exists l', (f, b, e). split; [exact Hp|]. split.
      * exists l0, i. cbn [item_flags item_last item_entry fst snd]. auto.
      * unfold shift. cbn [item_flags item_last item_entry fst snd app].
        now subst b0.
  - intros (i & d & Hi & [E|(Hd & l' & [[f' b'] e'] & Hp & Hloc & E)]).
    + injection E as -> -> ->.
      exists l, i. repeat split; auto. constructor.
    + unfold shift in E. cbn [item_flags item_last item_entry fst snd app] in E.
      injection E as -> -> ->.
      destruct Hloc as (l0 & j & Hr & Hj & Hb).
      cbn [item_flags item_last item_entry fst snd] in *.
      exists l0, j. split; [|auto].
      exact (reached_cons l i d l' f' l0 Hi Hd Hp Hr).
Qed.

(** The loop over [e :: E], taken apart. *)
Lemma in_loop_cons (n : Z) (k : nat) (e : DirEntry) (E : list DirEntry)
    (it : item) :
  in_loop_ n k (e :: E) it
  <-> it = ([], is_last_at n (Z.of_nat k), e)
      \/ (is_dir e = true
          /\ exists l' it',
               path e = inr l' /\ located_ l' it'
               /\ it = shift [is_last_at n (Z.of_nat k)] it')
      \/ in_loop_ n (S k) E it.
Proof.
  unfold in_loop. split.
  - intros (i & d & Hi & H). destruct i as [|i]; simpl in Hi.
    + injection Hi as <-. rewrite Nat.add_0_r in H.
      destruct H as [H|H]; auto.
    + right. right. exists i, d. split; [exact Hi|].
      now rewrite Nat.add_succ_r in H.
  - intros [H|[H|(i & d & Hi & H)]].
    + exists 0%nat, e. rewrite Nat.add_0_r. auto.
    + exists 0%nat, e. rewrite Nat.add_0_r. auto.
    + exists (S i), d. split; [exact Hi|].
      now rewrite Nat.add_succ_r.
Qed.

End Located.

Section Walked.
Variable lower : str -> str.

#[local] Abbreviation loop0 := (emit_loop last_glyph tee_glyph bar_glyph).
#[local] Abbreviation emit0 := (emit lower last_glyph tee_glyph bar_glyph).
#[local] Abbreviation line0 := (line last_glyph tee_glyph).
#[local] Abbreviation txt := (fun fl it => item_text (shift fl it)).

Lemma txt_head (fl : list bool) (b : bool) (e : DirEntry) :
  txt fl ([], b, e) = line0 (groups fl) b e.
Proof.
  unfold item_text, shift, line.
  cbn [item_flags item_last item_entry fst snd].
  now rewrite app_nil_r.
Qed.

Lemma txt_below (fl : list bool) (b : bool) (its : list item) :
  map (txt fl) (map (shift [b]) its) = map (txt (fl ++ [b])) its.
Proof.
  rewrite map_map. apply map_ext. intros it. now rewrite shift_shift.
Qed.

Lemma entries_shift (fl : list bool) (its : list item) :
  map item_entry (map (shift fl) its) = map item_entry its.
Proof. rewrite map_map. now apply map_ext. Qed.

(** The loop goes on after [e]: its line, what lies below it, the rest. *)
Lemma walked_cons_return (fl : list bool) (n : Z) (k : nat) (e : DirEntry)
    (E : list DirEntry) (sub_items : list item) (r : outcome unit)
    (rest : str) :
  (forall it, In it sub_items -> in_loop lower n k (e :: E) it) ->
  (forall l' it', is_dir e = true -> path e = inr l' ->
     located lower l' it' ->
     In (shift [is_last_at n (Z.of_nat k)] it') sub_items) ->
  Permutation (e :: map item_entry sub_items) (entries_below e) ->
  walked (in_loop lower n (S k) E) (flat_map entries_below E) fl r rest ->
  walked (in_loop lower n k (e :: E)) (flat_map entries_below (e :: E)) fl r
    (line0 (groups fl) (is_last_at n (Z.of_nat k)) e
     ++ concat (map (txt fl) sub_items) ++ rest).
Proof.
  intros Hsub Hall Hperm (its & -> & Hin & Hret & Hraise).
  exists (([], is_last_at n (Z.of_nat k), e) :: sub_items ++ its).
  split; [|split; [|split]].
  - cbn [map concat]. now rewrite txt_head, map_app, concat_app.
  - intros it [<-|Hit].
    + apply in_loop_cons. now left.
    + apply in_app_or in Hit. destruct Hit as [Hit|Hit]; [now apply Hsub|].
      apply in_loop_cons. right. right. now apply Hin.
  - intros Hr. destruct (Hret Hr) as [Hcomplete Hp]. split.
    + intros it Hit. apply in_loop_cons in Hit.
      destruct Hit as [->|[(Hd & l' & it' & Hp' & Hloc & ->)|Hit]].
      * now left.
      * right. apply in_or_app. left. now apply (Hall l').
      * right. apply in_or_app. right. now apply Hcomplete.
    + cbn [map flat_map item_entry snd]. rewrite map_app.
      change (e :: map item_entry sub_items ++ map item_entry its)
        with ((e :: map item_entry sub_items) ++ map item_entry its).
      now apply Permutation_app.
  - intros x Hx. destruct (Hraise x Hx) as (its' & it & -> & Hd & Hp).
    exists (([], is_last_at n (Z.of_nat k), e) :: sub_items ++ its'), it.
    split; [|auto]. now rewrite app_comm_cons, app_assoc.
Qed.

(** The loop stops at [e]: its line, and what was written below it. *)
Lemma walked_cons_stop (fl : list bool) (n : Z) (k : nat) (e : DirEntry)
    (E : list DirEntry) (sub_items : list item) (r : outcome unit) :
  r <> Return tt ->
  (forall it, In it sub_items -> in_loop lower n k (e :: E) it) ->
  (forall x, r = Raise x ->
     exists its' it,
       ([], is_last_at n (Z.of_nat k), e) :: sub_items = its' ++ [it]
       /\ is_dir (item_entry it) = true /\ path (item_entry it) = inl x) ->
  walked (in_loop lower n k (e :: E)) (flat_map entries_below (e :: E)) fl r
    (line0 (groups fl) (is_last_at n (Z.of_nat k)) e
     ++ concat (map (txt fl) sub_items)).
Proof.
  intros Hr Hsub Hraise.
  exists (([], is_last_at n (Z.of_nat k), e) :: sub_items).
  split; [|split; [|split]].
  - cbn [map concat]. now rewrite txt_head.
  - intros it [<-|Hit]; [|now apply Hsub].
    apply in_loop_cons. now left.
  - intros E'. now destruct Hr.
  - exact Hraise.
Qed.

Lemma emit_loop_walked (rec : directory -> str -> outcome unit * str)
    (n : Z) :
  (forall d fl r sub, rec d (groups fl) = (r, sub) ->
     match d with
     | inl e => sub = [] /\ r <> Return tt /\ (forall x, r = Raise x -> x = e)
     | inr l => walked (located lower l) (flat_map entries_below l) fl r sub
     end) ->
  forall E fl k r out,
    (forall e, In e E -> hidden e = false) ->
    loop0 rec (groups fl) n (Z.of_nat k) E = (r, out) ->
    walked (in_loop lower n k E) (flat_map entries_below E) fl r out.
Proof.
  intros Hrec. induction E as [|e E IH]; intros fl k r out Hvis H.
  - cbn [emit_loop] in H. injection H as <- <-. exists [].
    split; [reflexivity|]. split; [intros it []|]. split.
    + intros _. split; [|constructor].
      intros it (i & d & Hi & _). now destruct i.
    + discriminate.
  - assert (He : hidden e = false) by (apply Hvis; now left).
    assert (IH' : forall r' rest,
              loop0 rec (groups fl) n (Z.of_nat k + 1) E = (r', rest) ->
              walked (in_loop lower n (S k) E) (flat_map entries_below E)
                fl r' rest).
    { intros r' rest Hl. apply IH; [intros; apply Hvis; now right|].
      now replace (Z.of_nat (S k)) with (Z.of_nat k + 1)%Z by lia. }
    cbn [emit_loop] in H. cbv zeta in H.
    set (b := is_last_at n (Z.of_nat k)) in *.
    destruct (is_dir e) eqn:Hd.
    + rewrite <- groups_snoc in H.
      destruct (rec (path e) (groups (fl ++ [b]))) as [r1 sub] eqn:Hr1.
      apply Hrec in Hr1. destruct (path e) as [x0|l'] eqn:Hp.
      * destruct Hr1 as (-> & Hnr & Hx0).
        assert (r = r1 /\ out = line0 (groups fl) b e ++ concat (map (txt fl) [])).
        { cbn [map concat]. destruct r1 as [[]|y|];
            [now destruct Hnr| |]; cbv beta iota in H;
            injection H as <- <-; auto. }
        destruct H0 as [-> ->].
        apply walked_cons_stop; [exact Hnr|intros it []|].
        intros x Hx. exists [], ([], b, e).
        cbn [item_entry snd]. repeat split; auto.
        now rewrite (Hx0 x Hx) in *.
      * destruct Hr1 as (its & -> & Hin & Hret & Hraise).
        rewrite <- txt_below in H.
        assert (Hsub : forall it, In it (map (shift [b]) its) ->
                                  in_loop lower n k (e :: E) it).
        { intros it Hit. apply in_map_iff in Hit.
          destruct Hit as (it' & <- & Hit').
          apply in_loop_cons. right. left. split; [exact Hd|].
          exists l', it'. auto. }
        destruct r1 as [[]|y|]; cbv beta iota in H.
        -- destruct (loop0 rec (groups fl) n (Z.of_nat k + 1) E)
             as [r' rest] eqn:Hl.
           injection H as <- <-.
           apply walked_cons_return; [exact Hsub| | |now apply IH'].
           ++ intros l'' it' _ El Hloc. rewrite Hp in El.
              injection El as <-.
              apply in_map. now apply (proj1 (Hret eq_refl)).
           ++ rewrite entries_shift, entries_below_eq, He, Hd, Hp.
              cbn [reachable]. constructor. apply (proj2 (Hret eq_refl)).
        -- injection H as <- <-.
           apply walked_cons_stop; [discriminate|exact Hsub|].
           intros x Hx. destruct (Hraise x Hx) as (its' & it & -> & Hdi & Hpi).
           exists (([], b, e) :: map (shift [b]) its'), (shift [b] it).
           split; [now rewrite map_app|]. auto.
        -- injection H as <- <-.
           apply walked_cons_stop; [discriminate|exact Hsub|discriminate].
    + cbv beta iota in H.
      destruct (loop0 rec (groups fl) n (Z.of_nat k + 1) E)
        as [r' rest] eqn:Hl.
      injection H as <- <-.
      apply (walked_cons_return fl n k e E [] r' rest);
        [intros it []| | |now apply IH'].
      * intros l' it' Hd'. congruence.
      * rewrite entries_below_eq, He, Hd. reflexivity.
Qed.

(** What a walk has written, whatever its end. *)
Lemma emit_walked (fuel : nat) :
  forall d fl r sub, emit0 fuel d (groups fl) = (r, sub) ->
    match d with
    | inl e => sub = [] /\ r <> Return tt /\ (forall x, r = Raise x -> x = e)
    | inr l => walked (located lower l) (flat_map entries_below l) fl r sub
    end.
Proof.
  induction fuel as [|fuel IH]; intros d fl r sub H.
  - injection H as <- <-. destruct d as [e|l].
    + repeat split; discriminate.
    + exists []. split; [reflexivity|]. split; [intros it []|].
      split; discriminate.
  - destruct d as [e|l].
    + injection H as <- <-. repeat split; [discriminate|].
      now intros x [= ->].
    + rewrite emit_S_inr in H.
      apply (emit_loop_walked _ _ IH _ fl 0%nat) in H.
      * destruct H as (its & -> & Hin & Hret & Hraise). exists its.
        split; [reflexivity|]. split; [|split].
        -- intros it Hit. apply located_in_loop. now apply Hin.
        -- intros Hr. destruct (Hret Hr) as [Hc Hp]. split.
           ++ intros it Hit. apply Hc. now apply located_in_loop.
           ++ rewrite Hp. apply entries_below_entries_of.
        -- exact Hraise.
      * intros e He. now apply entries_of_In in He.
Qed.

End Walked.

(** A successful render, line by line: the root line, then the line of every
    entry the walk meets, each once and nothing else. *)
Lemma render_items (lower : str -> str) (p : str) (fs : directory) (t : str) :
  render lower p fs = Return t ->
  exists root items,
    fs = inr root
    /\ t = to_str (Path p) ++ newline ++ concat (map item_text items)
    /\ (forall it, In it items <-> located lower root it)
    /\ Permutation (map item_entry items) (reachable fs).
Proof.
  rewrite render_body. unfold body, text.
  destruct (emit lower last_glyph tee_glyph bar_glyph (S (dir_depth fs)) fs [])
    as [r out] eqn:He.
  change (@nil N) with (groups []) in He.
  apply emit_walked in He. cbn [fst snd].
  destruct fs as [e|root].
  - destruct He as (_ & Hnr & _). destruct r as [[]|x|]; try discriminate.
    now destruct Hnr.
  - destruct He as (its & -> & Hin & Hret & _).
    destruct r as [[]|x|]; try discriminate.
    cbn [finish]. intros [= <-].
    destruct (Hret eq_refl) as [Hc Hp].
    exists root, its. split; [reflexivity|]. split; [|split].
    + assert (Hm : map (fun it => item_text (shift [] it)) its
                   = map item_text its)
        by (apply map_ext; intros it; now rewrite shift_nil).
      now rewrite Hm.
    + intros it. split; [apply Hin | apply Hc].
    + exact Hp.
Qed.

(** ** C3: the first line and the lines after it *)

(** C3, as stated, fails: the root path is not printed verbatim.  For the
    argument [root/] the first line is [root]. *)
Lemma C3_counterexample :
  ~ (forall p fs t, render ascii_lower p fs = Return t ->
       exists rest, t = p ++ newline ++ rest).
Proof.
  intros H.
  destruct (H (lit "root/") (inr []) (lit "root" ++ newline) eq_refl)
    as [rest Hrest].
  vm_compute in Hrest. discriminate Hrest.
Qed.

(** C3, amended.  The returned string starts with [str(Path(root_dir))], the
    argument as [pathlib] normalises it, closed by a newline.  What follows
    is, one after the other and with nothing in between, the lines of the
    entries the walk meets: each line is the groups of its entry's ancestors,
    the connector, the entry's name and a newline; every entry met has its
    line, and the entries of the lines are the visible entries reachable
    through visible directories, each as often as it occurs. *)
Theorem C3_first_line_is_path_str (lower : str -> str)
    (p : str) (fs : directory) (t : str) :
  render lower p fs = Return t ->
  exists root items,
    fs = inr root
    /\ t = to_str (Path p) ++ newline ++ concat (map item_text items)
    /\ (forall it, In it items <-> located lower root it)
    /\ Permutation (map item_entry items) (reachable fs).
Proof. apply render_items. Qed.

Lemma C3_first_line_is_path_str_witness :
  exists root items,
    Example.root = inr root
    /\ Example.expected
       = to_str (Path (lit "root")) ++ newline ++ concat (map item_text items)
    /\ (forall it, In it items <-> located ascii_lower root it)
    /\ Permutation (map item_entry items) (reachable Example.root).
Proof.
  apply (C3_first_line_is_path_str ascii_lower (lit "root") Example.root).
  reflexivity.
Defined.

(** ** C10: a root whose own name is hidden *)



(** ** C7: the prefix of a nested entry *)

(** C7. An entry in a directory [k] levels below the root has its line in
    the output, standing between the lines of other entries the walk meets
    (after the root line and whole lines, before whole lines), and made of
    exactly [k] groups of four characters, the connector, the name and a
    newline; the [j]-th group is four spaces when the ancestor at depth [j]
    was the last visible sibling at its level and the bar with three spaces
    otherwise; going one level down appends one such group. *)
Theorem C7_prefix_groups (lower : str -> str) (p : str)
    (root : list DirEntry) (t : str) (flags : list bool)
    (l : list DirEntry) (i : nat) (e : DirEntry) :
  render lower p (inr root) = Return t ->
  reached lower root flags l ->
  nth_error (entries_of lower l) i = Some e ->
  (exists before after,
     t = to_str (Path p) ++ newline
         ++ concat (map item_text before)
         ++ (groups flags
             ++ (if (Z.of_nat i =? len (entries_of lower l) - 1)%Z
                 then last_glyph else tee_glyph)
             ++ name e ++ newline)
         ++ concat (map item_text after)
     /\ forall it,
          In it (before
                 ++ (flags, (Z.of_nat i =? len (entries_of lower l) - 1)%Z, e)
                 :: after)
          <-> located lower root it)
  /\ groups flags
     = concat (map (fun last : bool =>
                      if last then four_spaces else bar_glyph) flags)
  /\ length (groups flags) = (4 * length flags)%nat
  /\ (forall l', is_dir e = true -> path e = inr l' ->
        reached lower root
          (flags ++ [(Z.of_nat i =? len (entries_of lower l) - 1)%Z]) l'
        /\ groups (flags ++ [(Z.of_nat i =? len (entries_of lower l) - 1)%Z])
           = groups flags
             ++ (if (Z.of_nat i =? len (entries_of lower l) - 1)%Z
                 then four_spaces else bar_glyph)).
Proof.
  intros Ht Hr Hi. split; [|split; [|split]].
  - destruct (render_items lower p (inr root) t Ht)
      as (root' & items & [= <-] & -> & Hloc & _).
    assert (Hin : In (flags, (Z.of_nat i =? len (entries_of lower l) - 1)%Z, e)
                     items).
    { apply Hloc. exists l, i. cbn [item_flags item_last item_entry fst snd].
      auto. }
    apply in_split in Hin. destruct Hin as (before & after & ->).
    exists before, after. split; [|exact Hloc].
    rewrite map_app, concat_app. cbn [map concat].
    unfold item_text at 2. cbn [item_flags item_last item_entry fst snd].
    unfold connector. now rewrite <- !app_assoc.
  - reflexivity.
  - apply groups_length.
  - intros l' Hd Hp. split.
    + exact (reached_child lower root flags l i e l' Hr Hi Hd Hp).
    + apply groups_snoc.
Qed.

Lemma C7_prefix_groups_witness :
  (exists before after,
     Example.expected
     = to_str (Path (lit "root")) ++ newline
       ++ concat (map item_text before)
       ++ (groups [false]
           ++ (if (Z.of_nat 0 =? len (entries_of ascii_lower
                                        [Example.file "c.txt"]) - 1)%Z
               then last_glyph else tee_glyph)
           ++ name (Example.file "c.txt") ++ newline)
       ++ concat (map item_text after)
     /\ forall it,
          In it (before
                 ++ ([false],
                     (Z.of_nat 0 =? len (entries_of ascii_lower
                                           [Example.file "c.txt"]) - 1)%Z,
                     Example.file "c.txt")
                 :: after)
          <-> located ascii_lower
                [Example.dir ".hidden" []; Example.file "b.txt";
                 Example.dir "A" [Example.file "c.txt"]] it)
  /\ groups [false]
     = concat (map (fun last : bool =>
                      if last then four_spaces else bar_glyph) [false])
  /\ length (groups [false]) = (4 * length [false])%nat
  /\ (forall l', is_dir (Example.file "c.txt") = true ->
        path (Example.file "c.txt") = inr l' ->
        reached ascii_lower
          [Example.dir ".hidden" []; Example.file "b.txt";
           Example.dir "A" [Example.file "c.txt"]]
          ([false] ++ [(Z.of_nat 0 =? len (entries_of ascii_lower
                                             [Example.file "c.txt"]) - 1)%Z])
          l'
        /\ groups ([false] ++ [(Z.of_nat 0 =? len (entries_of ascii_lower
                                             [Example.file "c.txt"]) - 1)%Z])
           = groups [false]
             ++ (if (Z.of_nat 0 =? len (entries_of ascii_lower
                                          [Example.file "c.txt"]) - 1)%Z
                 then four_spaces else bar_glyph)).
Proof.
  apply (C7_prefix_groups ascii_lower (lit "root")
           [Example.dir ".hidden" []; Example.file "b.txt";
            Example.dir "A" [Example.file "c.txt"]]
           Example.expected [false] [Example.file "c.txt"] 0
           (Example.file "c.txt")).
  - reflexivity.
  - exact (reached_child ascii_lower
             [Example.dir ".hidden" []; Example.file "b.txt";
              Example.dir "A" [Example.file "c.txt"]]
             []
             [Example.dir ".hidden" []; Example.file "b.txt";
              Example.dir "A" [Example.file "c.txt"]]
             0 (Example.dir "A" [Example.file "c.txt"])
             [Example.file "c.txt"]
             (reached_root ascii_lower _) eq_refl eq_refl eq_refl).
  - reflexivity.
Defined.

(** * Further properties of the walk *)

(** ** X2: the buffer is only appended to *)

(** X2. Whatever the buffer holds, [_walk_directory] ends the same way and
    appends the same text to it, and leaves every other attribute of the
    object alone. *)
Theorem X2_walk_appends (lower : str -> str)
    (d : directory) (prefix : str) (self : DirectoryTree) :
  exists r out,
    forall t,
      _walk_directory lower d prefix (set_tree_str t self)
      = (r, set_tree_str (t ++ out) self).
Proof.
  exists (fst (text lower (last_ self) (tee self) (branch self) d prefix)),
    (snd (text lower (last_ self) (tee self) (branch self) d prefix)).
  intros t. unfold _walk_directory.
  rewrite (walk_emit lower (last_ self) (tee self) (branch self))
    by (repeat split).
  reflexivity.
Qed.

(** ** X3: an object that was used before *)

(** X3. [generate_tree] does not look at what an earlier call left behind:
    after a call over any file system, finished or cut short by an
    exception, a call over [fs] gives what it gives on the object as it
    was, and on a fresh object what [render] gives. *)
Theorem X3_generate_tree_forgets (lower : str -> str)
    (fs0 fs : directory) (self : DirectoryTree) :
  generate_tree lower fs (snd (generate_tree lower fs0 self))
  = generate_tree lower fs self
  /\ forall p,
       fst (generate_tree lower fs (snd (generate_tree lower fs0 (__init__ p))))
       = render lower p fs.
Proof.
  assert (H : forall s, generate_tree lower fs (snd (generate_tree lower fs0 s))
                        = generate_tree lower fs s).
  { intros s. rewrite (generate_tree_text lower fs0 s).
    cbn [snd]. rewrite !generate_tree_text. reflexivity. }
  split; [apply H|]. intros p. now rewrite H.
Qed.

(** ** X4: which failure is reported *)

Section FirstFailure.
Variable lower : str -> str.
Variables lst te br : str.

#[local] Abbreviation loop_ := (emit_loop lst te br).
#[local] Abbreviation emit_ := (emit lower lst te br).
#[local] Abbreviation text_ := (text lower lst te br).

(** How a loop ends depends on how the walks below end, not on the prefix
    or the position. *)
Lemma emit_loop_result_prefix (rec : directory -> str -> outcome unit * str)
    (l : list DirEntry) :
  (forall e a b, In e l -> fst (rec (path e) a) = fst (rec (path e) b)) ->
  forall p q n m idx idx',
    fst (loop_ rec p n idx l) = fst (loop_ rec q m idx' l).
Proof.
  induction l as [|e l IH]; intros H p q n m idx idx'; [reflexivity|].
  simpl.
  specialize (IH (fun e a b He => H e a b (or_intror He))
                 p q n m (idx + 1)%Z (idx' + 1)%Z).
  destruct (is_dir e).
  - pose proof (H e (p ++ group br (is_last_at n idx))
                  (q ++ group br (is_last_at m idx')) (or_introl eq_refl)) as He.
    destruct (rec (path e) (p ++ _)) as [[[]|x|] s1];
      destruct (rec (path e) (q ++ _)) as [[[]|y|] s2];
      simpl in He; try discriminate; try (injection He as ->); try reflexivity.
    destruct (loop_ rec p n (idx + 1) l), (loop_ rec q m (idx' + 1) l).
    exact IH.
  - destruct (loop_ rec p n (idx + 1) l), (loop_ rec q m (idx' + 1) l).
    exact IH.
Qed.

Lemma emit_result_prefix (fuel : nat) :
  forall d p q, fst (emit_ fuel d p) = fst (emit_ fuel d q).
Proof.
  induction fuel as [|fuel IH]; intros d p q; [reflexivity|].
  destruct d as [x|l]; [reflexivity|].
  rewrite !emit_S_inr. apply emit_loop_result_prefix.
  intros e a b _. apply IH.
Qed.

(** The loop stops at the first entry whose walk raises. *)
Lemma emit_loop_first_failure (rec : directory -> str -> outcome unit * str)
    (prefix : str) (n : Z) (l1 : list DirEntry) (d : DirEntry)
    (l2 : list DirEntry) (x : exn) :
  (forall b q, In b l1 -> is_dir b = true -> fst (rec (path b) q) = Return tt) ->
  is_dir d = true ->
  (forall q, fst (rec (path d) q) = Raise x) ->
  forall idx, fst (loop_ rec prefix n idx (l1 ++ d :: l2)) = Raise x.
Proof.
  intros Hb Hd Hx. induction l1 as [|b l1 IH]; intros idx; simpl.
  - rewrite Hd. specialize (Hx (prefix ++ group br (is_last_at n idx))).
    destruct (rec (path d) _) as [r sub]. simpl in Hx. now subst r.
  - specialize (IH (fun b q H => Hb b q (or_intror H)) (idx + 1)%Z).
    destruct (is_dir b) eqn:Hdb.
    + pose proof (Hb b (prefix ++ group br (is_last_at n idx))
                    (or_introl eq_refl) Hdb) as Hr.
      destruct (rec (path b) _) as [r sub]. simpl in Hr. subst r.
      now destruct (loop_ rec prefix n (idx + 1) (l1 ++ d :: l2)).
    + now destruct (loop_ rec prefix n (idx + 1) (l1 ++ d :: l2)).
Qed.

(** A directory under which no listing fails is walked to the end. *)
Lemma text_returns (d : directory) (q : str) :
  (forall e, ~ raises_in d e) -> fst (text_ d q) = Return tt.
Proof.
  intros Hno. pose proof (text_total lower lst te br d q) as Htot.
  unfold text in *.
  destruct (emit_ (S (dir_depth d)) d q) as [[[]|x|] out] eqn:He;
    cbn [fst] in *; [reflexivity| |easy].
  exfalso. apply (Hno x). exact (emit_raise_sound _ _ _ _ _ _ _ _ _ He).
Qed.

Lemma text_first_failure (l : list DirEntry) (i : nat) (d : DirEntry)
    (x : exn) :
  nth_error (entries_of lower l) i = Some d ->
  is_dir d = true ->
  (forall j b e, (j < i)%nat -> nth_error (entries_of lower l) j = Some b ->
     is_dir b = true -> ~ raises_in (path b) e) ->
  fst (text_ (path d) []) = Raise x ->
  forall prefix, fst (text_ (inr l) prefix) = Raise x.
Proof.
  intros Hi Hd Hbefore Hx prefix. rewrite text_inr.
  destruct (nth_error_split _ _ Hi) as (l1 & l2 & Hl & Hlen).
  rewrite Hl. apply emit_loop_first_failure; [|exact Hd|].
  - intros b q Hb Hdb. apply text_returns. intros e.
    apply In_nth_error in Hb. destruct Hb as [j Hj].
    assert (Hjl : (j < length l1)%nat) by (apply nth_error_Some; congruence).
    apply (Hbefore j b e); [lia| |exact Hdb].
    rewrite Hl, nth_error_app1 by exact Hjl. exact Hj.
  - intros q. unfold text in *. rewrite <- Hx. apply emit_result_prefix.
Qed.

End FirstFailure.

(** X4. The exception that comes out is that of the first directory, in the
    order of the walk, whose walk fails: when the entries before it are
    walked without failure, a directory whose walk raises [x] makes the walk
    of its parent raise [x] under any prefix, nothing after it is listed,
    and at the root [render] raises [x] and the entry point prints [x]'s
    text. *)
Theorem X4_first_failure_is_reported (lower : str -> str)
    (l : list DirEntry) (i : nat) (d : DirEntry) (x : exn) :
  nth_error (entries_of lower l) i = Some d ->
  is_dir d = true ->
  (forall j b e, (j < i)%nat -> nth_error (entries_of lower l) j = Some b ->
     is_dir b = true -> ~ raises_in (path b) e) ->
  walk_result lower (path d) [] = Raise x ->
  (forall prefix, walk_result lower (inr l) prefix = Raise x)
  /\ forall p stdout,
       render lower p (inr l) = Raise x
       /\ print_directory_tree lower p (inr l) stdout
          = (Return tt,
             stdout ++ lit "Error generating directory tree: "
                    ++ exn_str x ++ newline).
Proof.
  intros Hi Hd Hbefore Hx.
  assert (Hw : forall prefix, walk_result lower (inr l) prefix = Raise x).
  { intros prefix.
    pose proof (walk_text_eq lower (inr l) prefix) as E.
    apply (f_equal fst) in E. cbn [fst] in E. rewrite <- E.
    apply (text_first_failure lower _ _ _ l i d x Hi Hd Hbefore).
    pose proof (walk_text_eq lower (path d) []) as E'.
    apply (f_equal fst) in E'. cbn [fst] in E'. now rewrite E'. }
  split; [exact Hw|]. intros p stdout.
  assert (Hr : render lower p (inr l) = Raise x).
  { rewrite render_walk, Hw. reflexivity. }
  split; [exact Hr|].
  rewrite print_directory_tree_render, Hr. unfold print.
  now rewrite <- app_assoc.
Qed.

Lemma X4_first_failure_is_reported_witness :
  (forall prefix,
     walk_result ascii_lower
       (inr [{| name := lit "c"; is_dir := true;
                path := inl (OSError (lit "Not found")) |};
             {| name := lit "b"; is_dir := true;
                path := inl (OSError (lit "Permission denied")) |};
             Example.dir "a" [Example.file "x"]]) prefix
     = Raise (OSError (lit "Permission denied")))
  /\ forall p stdout,
       render ascii_lower p
         (inr [{| name := lit "c"; is_dir := true;
                  path := inl (OSError (lit "Not found")) |};
               {| name := lit "b"; is_dir := true;
                  path := inl (OSError (lit "Permission denied")) |};
               Example.dir "a" [Example.file "x"]])
       = Raise (OSError (lit "Permission denied"))
       /\ print_directory_tree ascii_lower p
            (inr [{| name := lit "c"; is_dir := true;
                     path := inl (OSError (lit "Not found")) |};
                  {| name := lit "b"; is_dir := true;
                     path := inl (OSError (lit "Permission denied")) |};
                  Example.dir "a" [Example.file "x"]]) stdout
          = (Return tt,
             stdout ++ lit "Error generating directory tree: "
                    ++ exn_str (OSError (lit "Permission denied")) ++ newline).
Proof.
  apply (X4_first_failure_is_reported ascii_lower _ 1
           {| name := lit "b"; is_dir := true;
              path := inl (OSError (lit "Permission denied")) |}).
  - reflexivity.
  - reflexivity.
  - intros j b e Hj Hb _ Hr.
    destruct j as [|j]; [|lia].
    injection Hb as <-.
    inversion Hr as [|l0 d0 e0 Hin Hv Hd0 Hr0]; subst.
    destruct Hin as [<-|[]].
    discriminate Hd0.
  - reflexivity.
Defined.

(** ** X5: the text of one directory, from the texts below it *)

Section Level.
Variables lst te br : str.

(** Whether each of [k] positions counted from [idx] is the last of [n]. *)
Lemma last_flags_shift (n idx : Z) (k : nat) :
  map (fun j => is_last_at n (idx + Z.of_nat j)) (seq 1 k)
  = map (fun j => is_last_at n (idx + 1 + Z.of_nat j)) (seq 0 k).
Proof.
  rewrite <- seq_shift, map_map. apply map_ext. intros j.
  f_equal. lia.
Qed.

Lemma last_flags (k : nat) :
  map (fun j => is_last_at (Z.of_nat (S k)) (0 + Z.of_nat j)) (seq 0 (S k))
  = repeat false k ++ [true].
Proof.
  rewrite seq_S, map_app. f_equal.
  - rewrite <- (length_seq k 0) at 2. rewrite <- map_const.
    apply map_ext_in. intros j Hj. apply in_seq in Hj.
    unfold is_last_at. apply Z.eqb_neq. lia.
  - simpl. unfold is_last_at. f_equal. apply Z.eqb_eq. lia.
Qed.

Lemma emit_loop_text (rec : directory -> str -> outcome unit * str)
    (prefix : str) (n : Z) (l : list DirEntry) :
  forall idx out,
    emit_loop lst te br rec prefix n idx l = (Return tt, out) ->
    out = concat
            (map (fun eb : DirEntry * bool =>
                    line lst te prefix (snd eb) (fst eb)
                    ++ (if is_dir (fst eb)
                        then snd (rec (path (fst eb))
                                    (prefix ++ group br (snd eb)))
                        else []))
                 (combine l (map (fun j => is_last_at n (idx + Z.of_nat j))
                                 (seq 0 (length l))))).
Proof.
  induction l as [|e l IH]; intros idx out H; simpl in H.
  - now injection H as <-.
  - cbn [length seq map combine concat fst snd].
    rewrite last_flags_shift, Z.add_0_r.
    destruct (is_dir e).
    + destruct (rec (path e) _) as [[[]|x|] sub]; try discriminate.
      destruct (emit_loop lst te br rec prefix n (idx + 1) l) as [r rest] eqn:Hl.
      injection H as -> <-. cbn [snd].
      rewrite <- (IH _ _ Hl). now rewrite <- !app_assoc.
    + destruct (emit_loop lst te br rec prefix n (idx + 1) l) as [r rest] eqn:Hl.
      injection H as -> <-.
      rewrite <- (IH _ _ Hl). now rewrite <- !app_assoc.
Qed.

End Level.

(** X5. A directory that is walked to the end has, as its text, the texts of
    its visible entries in sorted order, one after the other: for each the
    line [prefix + connector + name], then, for a directory, the text of
    that directory under the longer prefix.  The last entry, and only the
    last, has the corner and four spaces; every other has the tee and the
    bar. *)
Theorem X5_directory_text (lower : str -> str)
    (l : list DirEntry) (prefix : str) :
  walk_result lower (inr l) prefix = Return tt ->
  walk_text lower (inr l) prefix
  = children_text lower prefix (entries_of lower l).
Proof.
  intros Hr.
  pose proof (walk_text_eq lower (inr l) prefix) as E.
  rewrite Hr, text_inr in E.
  apply emit_loop_text in E. rewrite E. unfold children_text.
  f_equal.
  destruct (entries_of lower l) as [|e es] eqn:He; [reflexivity|].
  unfold len. cbn [length]. rewrite last_flags.
  replace (S (length es) - 1)%nat with (length es) by lia.
  apply map_ext. intros [e' b]. cbn [fst snd].
  destruct (is_dir e'); [|reflexivity].
  now rewrite walk_text_eq.
Qed.

Lemma X5_directory_text_witness :
  walk_text ascii_lower Example.root []
  = children_text ascii_lower []
      (entries_of ascii_lower
         [Example.dir ".hidden" []; Example.file "b.txt";
          Example.dir "A" [Example.file "c.txt"]]).
Proof.
  apply (X5_directory_text ascii_lower
           [Example.dir ".hidden" []; Example.file "b.txt";
            Example.dir "A" [Example.file "c.txt"]] []).
  reflexivity.
Defined.

(** ** X6: the order in which [os.scandir] yields the entries *)

Lemma ltb_none_eq (a b : str) : ltb a b = false -> ltb b a = false -> a = b.
Proof.
  unfold ltb. rewrite (compare_antisym a b).
  destruct (compare a b) eqn:E; simpl; try discriminate.
  intros _ _. now apply compare_eq.
Qed.

Lemma filter_perm {A} (p : A -> bool) (l l' : list A) :
  Permutation l l' -> Permutation (filter p l) (filter p l').
Proof.
  induction 1 as [|x l l' H IH|x y l|l l' l'' H1 IH1 H2 IH2]; simpl.
  - constructor.
  - destruct (p x); [now constructor | exact IH].
  - destruct (p x), (p y); try reflexivity. apply perm_swap.
  - now transitivity (filter p l').
Qed.

Section OrderedUnique.
Context {A : Type}.
Variable key : A -> str.

(** Two ordered arrangements of the same entries, all of different keys,
    are one list. *)
Lemma ordered_perm_unique (l1 : list A) :
  forall l2,
    StronglySorted (key_le key) l1 -> StronglySorted (key_le key) l2 ->
    Permutation l1 l2 -> NoDup (map key l1) -> l1 = l2.
Proof.
  induction l1 as [|x t1 IH]; intros l2 H1 H2 Hp Hn.
  - now apply Permutation_nil in Hp.
  - destruct l2 as [|y t2];
      [apply Permutation_sym, Permutation_nil in Hp; discriminate|].
    apply StronglySorted_inv in H1, H2.
    destruct H1 as [H1 Hx], H2 as [H2 Hy].
    rewrite Forall_forall in Hx, Hy.
    simpl in Hn. apply NoDup_cons_iff in Hn. destruct Hn as [Hnx Hn].
    assert (Hxy : x = y).
    { assert (Hyin : In y (x :: t1))
        by (apply (Permutation_in _ (Permutation_sym Hp)); now left).
      assert (Hxin : In x (y :: t2))
        by (apply (Permutation_in _ Hp); now left).
      destruct Hyin as [E|Hyin]; [exact E|].
      destruct Hxin as [E|Hxin]; [now symmetry|].
      exfalso. apply Hnx.
      replace (key x) with (key y).
      - now apply in_map.
      - apply ltb_none_eq; [apply (Hx y Hyin) | apply (Hy x Hxin)]. }
    subst y. f_equal. apply IH; auto.
    now apply Permutation_cons_inv in Hp.
Qed.

Lemma sorted_perm_eq (l l' : list A) :
  Permutation l l' -> NoDup (map key l) -> sorted key l = sorted key l'.
Proof.
  intros Hp Hn. apply ordered_perm_unique; try apply sorted_ordered.
  - rewrite (sorted_perm key l), Hp. symmetry. apply sorted_perm.
  - apply (Permutation_NoDup (l := map key l)); [|exact Hn].
    apply Permutation_map. symmetry. apply sorted_perm.
Qed.

End OrderedUnique.

(** Listings over which the loop runs through the same entries. *)
Lemma walk_same_entries (lower : str -> str) (l l' : list DirEntry) :
  entries_of lower l = entries_of lower l' ->
  (forall fuel prefix self,
     walk lower fuel (inr l) prefix self = walk lower fuel (inr l') prefix self)
  /\ (forall p, render lower p (inr l) = render lower p (inr l')).
Proof.
  intros H. split.
  - intros fuel prefix self.
    rewrite !(walk_emit lower (last_ self) (tee self) (branch self))
      by (repeat split).
    destruct fuel as [|fuel]; [reflexivity|].
    now rewrite !emit_S_inr, H.
  - intros p. rewrite !render_body. unfold body.
    now rewrite !text_inr, H.
Qed.

(** X6. When the visible entries of a directory have different lowered
    names, the order in which [os.scandir] yields its entries does not show:
    any two orders are walked alike, at every level, and rendered alike. *)
Theorem X6_listing_order_is_irrelevant (lower : str -> str)
    (l l' : list DirEntry) :
  Permutation l l' ->
  NoDup (map (fun e => lower (name e)) (filter visible l)) ->
  (forall fuel prefix self,
     walk lower fuel (inr l) prefix self = walk lower fuel (inr l') prefix self)
  /\ (forall p, render lower p (inr l) = render lower p (inr l')).
Proof.
  intros Hp Hn. apply walk_same_entries.
  rewrite !entries_of_visible.
  apply sorted_perm_eq; [now apply filter_perm | exact Hn].
Qed.

Lemma X6_listing_order_is_irrelevant_witness :
  (forall fuel prefix self,
     walk ascii_lower fuel
       (inr [Example.file "b.txt"; Example.dir "A" [Example.file "c.txt"];
             Example.dir ".hidden" []]) prefix self
     = walk ascii_lower fuel
         (inr [Example.dir ".hidden" []; Example.file "b.txt";
               Example.dir "A" [Example.file "c.txt"]]) prefix self)
  /\ (forall p,
        render ascii_lower p
          (inr [Example.file "b.txt"; Example.dir "A" [Example.file "c.txt"];
                Example.dir ".hidden" []])
        = render ascii_lower p
            (inr [Example.dir ".hidden" []; Example.file "b.txt";
                  Example.dir "A" [Example.file "c.txt"]])).
Proof.
  apply (X6_listing_order_is_irrelevant ascii_lower).
  - apply Permutation_sym.
    apply (Permutation_cons_app
             [Example.file "b.txt"; Example.dir "A" [Example.file "c.txt"]] []).
    rewrite app_nil_r. reflexivity.
  - repeat constructor; simpl; intuition discriminate.
Defined.

(** ** X7: entries whose lowered names are equal *)

Lemma filter_split {A} (q : A -> bool) (a : A) (v : list A) :
  forall (E u : list A),
    filter q E = u ++ a :: v ->
    exists E1 E2, E = E1 ++ a :: E2 /\ filter q E1 = u /\ filter q E2 = v.
Proof.
  induction E as [|x E IH]; intros u H; simpl in H.
  - now destruct u.
  - destruct (q x) eqn:Hq.
    + destruct u as [|y u]; simpl in H; injection H as -> H.
      * exists [], E. auto.
      * destruct (IH u H) as (E1 & E2 & -> & H1 & H2).
        exists (y :: E1), E2. simpl. rewrite Hq, H1. auto.
    + destruct (IH u H) as (E1 & E2 & -> & H1 & H2).
      exists (x :: E1), E2. simpl. rewrite Hq. auto.
Qed.

(** In a directory the walk enters, the entry at the earlier position of
    the loop has its line and its subtree before the line of the later. *)
Lemma lines_by_position (lower : str -> str) (p : str)
    (root : list DirEntry) (t : str) (flags : list bool)
    (l : list DirEntry) (i j : nat) (a b : DirEntry) :
  render lower p (inr root) = Return t ->
  reached lower root flags l ->
  nth_error (entries_of lower l) i = Some a ->
  nth_error (entries_of lower l) j = Some b ->
  (i < j)%nat ->
  exists pre sub mid post cb,
    t = pre ++ (groups flags ++ tee_glyph ++ name a ++ newline)
            ++ sub ++ mid
            ++ (groups flags ++ cb ++ name b ++ newline) ++ post
    /\ sub = (if is_dir a
              then walk_text lower (path a) (groups flags ++ bar_glyph)
              else [])
    /\ (cb = tee_glyph \/ cb = last_glyph).
Proof.
  intros Ht Hr Hi Hj Hij.
  destruct (reached_render lower p root t flags l Ht Hr)
    as (pre & out & post & -> & Hout).
  rewrite text_inr in Hout.
  destruct (emit_loop_two _ _ _ _ _ _ _ _ _ _ _ _ _ Hout Hi Hj Hij)
    as (pre' & sub & mid & post' & -> & Hsub).
  assert (Hjn : (j < length (entries_of lower l))%nat)
    by (apply nth_error_Some; congruence).
  assert (Hlast : is_last_at (len (entries_of lower l)) (0 + Z.of_nat i)
                  = false).
  { unfold is_last_at, len. apply Z.eqb_neq. lia. }
  rewrite Hlast in *.
  exists (pre ++ pre'), sub, mid, (post' ++ post),
    (connector last_glyph tee_glyph
       (is_last_at (len (entries_of lower l)) (0 + Z.of_nat j))).
  split; [|split].
  - unfold line. cbn [connector]. now rewrite <- !app_assoc.
  - unfold subtree in Hsub. destruct (is_dir a); [|exact Hsub].
    rewrite walk_text_eq in Hsub. cbn [group] in Hsub. congruence.
  - destruct (is_last_at _ _); simpl; auto.
Qed.

(** X7. Of two visible entries of a directory whose lowered names are
    equal, the one [os.scandir] yielded first has its line first, then its
    whole subtree, and only further on comes the line of the other: the sort
    is stable. *)
Theorem X7_ties_keep_listing_order (lower : str -> str) (p : str)
    (root : list DirEntry) (t : str) (flags : list bool)
    (l1 l2 l3 : list DirEntry) (a b : DirEntry) :
  render lower p (inr root) = Return t ->
  reached lower root flags (l1 ++ a :: l2 ++ b :: l3) ->
  hidden a = false -> hidden b = false ->
  lower (name a) = lower (name b) ->
  exists pre sub mid post cb,
    t = pre ++ (groups flags ++ tee_glyph ++ name a ++ newline)
            ++ sub ++ mid
            ++ (groups flags ++ cb ++ name b ++ newline) ++ post
    /\ sub = (if is_dir a
              then walk_text lower (path a) (groups flags ++ bar_glyph)
              else [])
    /\ (cb = tee_glyph \/ cb = last_glyph).
Proof.
  intros Ht Hr Ha Hb Hk.
  set (l := l1 ++ a :: l2 ++ b :: l3) in *.
  set (key := fun e : DirEntry => lower (name e)).
  set (q := fun e : DirEntry =>
              match compare (key e) (key a) with Eq => true | _ => false end).
  assert (Hqa : q a = true).
  { unfold q. now replace (compare (key a) (key a)) with Eq
      by (symmetry; now apply compare_eq). }
  assert (Hqb : q b = true).
  { unfold q, key. rewrite <- Hk. exact Hqa. }
  assert (Hstable : filter q (entries_of lower l) = filter q (filter visible l)).
  { rewrite entries_of_visible. apply sorted_stable.
    intros x y Hx Hy. unfold q in Hx, Hy.
    destruct (compare (key x) (key a)) eqn:Ex; try discriminate.
    destruct (compare (key y) (key a)) eqn:Ey; try discriminate.
    apply compare_eq in Ex, Ey. fold (key x) (key y). congruence. }
  assert (Hva : visible a = true) by (unfold visible; now rewrite Ha).
  assert (Hvb : visible b = true) by (unfold visible; now rewrite Hb).
  unfold l in Hstable at 2.
  rewrite !filter_app in Hstable. cbn [filter] in Hstable.
  rewrite Hva in Hstable. cbn [filter] in Hstable. rewrite Hqa in Hstable.
  rewrite !filter_app in Hstable. cbn [filter] in Hstable.
  rewrite Hvb in Hstable. cbn [filter] in Hstable. rewrite Hqb in Hstable.
  destruct (filter_split q a _ _ _ Hstable) as (E1 & E2 & HE & _ & H2).
  destruct (filter_split q b _ _ _ H2) as (E3 & E4 & HE2 & _ & _).
  subst E2.
  apply (lines_by_position lower p root t flags l
           (length E1) (length E1 + S (length E3)) a b Ht Hr).
  - rewrite HE, nth_error_app2, Nat.sub_diag by lia. reflexivity.
  - rewrite HE, nth_error_app2 by lia.
    replace (length E1 + S (length E3) - length E1)%nat
      with (S (length E3)) by lia.
    cbn [nth_error]. rewrite nth_error_app2, Nat.sub_diag by lia. reflexivity.
  - lia.
Qed.

Lemma X7_ties_keep_listing_order_witness :
  exists pre sub mid post cb,
    lit "d" ++ newline ++ tee_glyph ++ lit "Readme" ++ newline
      ++ last_glyph ++ lit "README" ++ newline
    = pre ++ (groups [] ++ tee_glyph ++ name (Example.file "Readme") ++ newline)
          ++ sub ++ mid
          ++ (groups [] ++ cb ++ name (Example.file "README") ++ newline)
          ++ post
    /\ sub = (if is_dir (Example.file "Readme")
              then walk_text ascii_lower (path (Example.file "Readme"))
                     (groups [] ++ bar_glyph)
              else [])
    /\ (cb = tee_glyph \/ cb = last_glyph).
Proof.
  apply (X7_ties_keep_listing_order ascii_lower (lit "d")
           [Example.file "Readme"; Example.file "README"]
           _ [] [] [] [] (Example.file "Readme") (Example.file "README")).
  - reflexivity.
  - apply reached_root.
  - reflexivity.
  - reflexivity.
  - reflexivity.
Defined.

(** ** X8: entries that are not directories are never listed *)

Section SameButFilePath.
Variable lower : str -> str.

#[local] Abbreviation key_ := (fun e : DirEntry => lower (name e)).

Lemma insert_same (x x' : DirEntry) (l l' : list DirEntry) :
  same_but_file_path x x' -> Forall2 same_but_file_path l l' ->
  Forall2 same_but_file_path (insert key_ x l) (insert key_ x' l').
Proof.
  intros Hx. induction 1 as [|y y' l l' Hy Hl IH]; simpl.
  - constructor; [exact Hx | constructor].
  - destruct Hx as (Hn & Hx'), Hy as (Hm & Hy').
    rewrite <- Hn, <- Hm.
    destruct (ltb (lower (name y)) (lower (name x))).
    + constructor; [now split | exact IH].
    + constructor; [now split|]. constructor; [now split | exact Hl].
Qed.

Lemma sorted_same (l l' : list DirEntry) :
  Forall2 same_but_file_path l l' ->
  Forall2 same_but_file_path (sorted key_ l) (sorted key_ l').
Proof.
  induction 1 as [|x x' l l' Hx Hl IH]; simpl; [constructor|].
  now apply insert_same.
Qed.

Lemma entries_of_same (l l' : list DirEntry) :
  Forall2 same_but_file_path l l' ->
  Forall2 same_but_file_path (entries_of lower l) (entries_of lower l').
Proof.
  intros H. apply sorted_same in H. unfold entries_of.
  induction H as [|x x' s s' Hx Hs IH]; simpl; [constructor|].
  assert (Hh : hidden x = hidden x')
    by (unfold hidden; destruct Hx as (-> & _); reflexivity).
  rewrite <- Hh. destruct (hidden x); simpl; [exact IH|].
  now constructor.
Qed.

Lemma emit_loop_same (lst te br : str)
    (rec : directory -> str -> outcome unit * str) (prefix : str) (n : Z)
    (l l' : list DirEntry) :
  Forall2 same_but_file_path l l' ->
  forall idx,
    emit_loop lst te br rec prefix n idx l
    = emit_loop lst te br rec prefix n idx l'.
Proof.
  induction 1 as [|x x' l l' Hx Hl IH]; intros idx; [reflexivity|].
  simpl. rewrite IH. destruct Hx as (Hn & Hd & Hp).
  unfold line. rewrite <- Hn, <- Hd.
  destruct (is_dir x); [|reflexivity].
  now rewrite <- (Hp eq_refl).
Qed.

End SameButFilePath.

(** X8. [os.scandir] is called for the root and for entries whose
    [is_dir()] is true, and for nothing else: what lies at the path of an
    entry that is not a directory, or what listing it would raise, changes
    neither the walk nor the rendering. *)
Theorem X8_non_directories_are_not_listed (lower : str -> str)
    (l l' : list DirEntry) :
  Forall2 same_but_file_path l l' ->
  (forall fuel prefix self,
     walk lower fuel (inr l) prefix self = walk lower fuel (inr l') prefix self)
  /\ (forall p, render lower p (inr l) = render lower p (inr l')).
Proof.
  intros H.
  pose proof (entries_of_same lower l l' H) as He.
  pose proof (Forall2_length He) as Hlen.
  split.
  - intros fuel prefix self.
    rewrite !(walk_emit lower (last_ self) (tee self) (branch self))
      by (repeat split).
    destruct fuel as [|fuel]; [reflexivity|].
    rewrite !emit_S_inr. unfold len. rewrite Hlen.
    now rewrite (emit_loop_same _ _ _ _ _ _ _ _ He).
  - intros p. rewrite !render_body. unfold body.
    rewrite !text_inr. unfold len. rewrite Hlen.
    now rewrite (emit_loop_same _ _ _ _ _ _ _ _ He).
Qed.

Lemma X8_non_directories_are_not_listed_witness :
  (forall fuel prefix self,
     walk ascii_lower fuel
       (inr [{| name := lit "notes"; is_dir := false;
                path := inl (OSError (lit "Permission denied")) |}])
       prefix self
     = walk ascii_lower fuel
         (inr [{| name := lit "notes"; is_dir := false;
                  path := inr [Example.file "x"] |}]) prefix self)
  /\ (forall p,
        render ascii_lower p
          (inr [{| name := lit "notes"; is_dir := false;
                   path := inl (OSError (lit "Permission denied")) |}])
        = render ascii_lower p
            (inr [{| name := lit "notes"; is_dir := false;
                     path := inr [Example.file "x"] |}])).
Proof.
  apply (X8_non_directories_are_not_listed ascii_lower).
  repeat constructor; simpl; discriminate.
Defined.

(** ** X9: what the buffer holds after a failure *)


